(** * A shallow embedding of the apply orchestrator and the metadata stack

    Three source files are embedded, one module each:
    - [Files]     : [blockwart/items/files.py]   (attribute validators)
    - [Metastack] : [bundlewrap/utils/metastack.py]
    - [Node]      : [blockwart/node.py]          (aggregator and item scheduler)

    Python values are modelled by first-order data, exceptions by an
    explicit result type, loops by folds or by a step relation. *)

From Stdlib Require Import List String Ascii Bool Arith NArith ZArith Lia
  Permutation DecimalString.
Import ListNotations.

Set Warnings "-register-all".
Set Default Goal Selector "!".

Local Open Scope string_scope.
Local Open Scope list_scope.

(** ** Results of fallible code *)

Inductive result (E A : Type) : Type :=
| Ok (a : A)
| Raise (e : E).
Arguments Ok {E A} a.
Arguments Raise {E A} e.

Definition bind {E A B} (r : result E A) (k : A -> result E B) : result E B :=
  match r with
  | Ok a => k a
  | Raise e => Raise e
  end.

Notation "x <- r ;; k" := (bind r (fun x => k))
  (at level 61, r at next level, right associativity).
Notation "r ;;; k" := (bind r (fun _ => k))
  (at level 61, right associativity).

(** ** Strings as Python 2 byte strings *)

Fixpoint chars (s : string) : list ascii :=
  match s with
  | EmptyString => []
  | String c r => c :: chars r
  end.

Lemma chars_length (s : string) : List.length (chars s) = String.length s.
Proof. induction s; simpl; congruence. Qed.

(** [str.split(sep)] for a one-character separator: the pieces between
    the separators, always at least one piece. *)
Fixpoint split_on (sep : ascii) (s : string) : list string :=
  match s with
  | EmptyString => [EmptyString]
  | String c r =>
      if Ascii.eqb c sep then EmptyString :: split_on sep r
      else match split_on sep r with
           | [] => [String c EmptyString]
           | p :: ps => String c p :: ps
           end
  end.

Fixpoint assoc_get {A} (k : string) (m : list (string * A)) : option A :=
  match m with
  | [] => None
  | (k', v) :: r => if String.eqb k k' then Some v else assoc_get k r
  end.

(** [d[k] = v] on an insertion-ordered dict: an existing key keeps its
    position, a new key goes to the end. *)
Fixpoint assoc_set {A} (k : string) (v : A) (m : list (string * A))
  : list (string * A) :=
  match m with
  | [] => [(k, v)]
  | (k', v') :: r =>
      if String.eqb k k' then (k, v) :: r else (k', v') :: assoc_set k v r
  end.

Lemma assoc_get_set_eq {A} k (v : A) m : assoc_get k (assoc_set k v m) = Some v.
Proof.
  induction m as [|[k' v'] r IH]; simpl.
  - now rewrite String.eqb_refl.
  - destruct (String.eqb k k') eqn:E; simpl; rewrite ?String.eqb_refl, ?E; auto.
Qed.

Lemma assoc_get_set_neq {A} k k' (v : A) m :
  k <> k' -> assoc_get k (assoc_set k' v m) = assoc_get k m.
Proof.
  intros N. induction m as [|[k2 v2] r IH]; simpl.
  - apply String.eqb_neq in N. now rewrite N.
  - destruct (String.eqb k' k2) eqn:E; simpl.
    + apply String.eqb_eq in E. subst k2.
      apply String.eqb_neq in N. now rewrite N.
    + destruct (String.eqb k k2); auto.
Qed.

(** ** Text: Python's [str] as a sequence of code points *)

Abbreviation codepoint := N (only parsing).
Abbreviation text := (list N) (only parsing).

(** An ASCII literal of the source as text. *)
Definition text_of_string (s : string) : text := map N_of_ascii (chars s).

Fixpoint text_eqb (a b : text) : bool :=
  match a, b with
  | [], [] => true
  | x :: a', y :: b' => N.eqb x y && text_eqb a' b'
  | _, _ => false
  end.

Lemma text_eqb_eq (a b : text) : text_eqb a b = true <-> a = b.
Proof.
  revert b. induction a as [|x a' IH]; intros [|y b']; simpl;
    try (split; [discriminate|discriminate]); [split; reflexivity|].
  rewrite andb_true_iff, N.eqb_eq, IH. split.
  - intros [-> ->]. reflexivity.
  - intros [= -> ->]. auto.
Qed.

Lemma split_on_no_sep sep s :
  ~ In sep (chars s) -> split_on sep s = [s].
Proof.
  induction s as [|c r IH]; simpl; intros N; [reflexivity|].
  destruct (Ascii.eqb c sep) eqn:E.
  - apply Ascii.eqb_eq in E. exfalso. apply N. now left.
  - rewrite IH by (intros H; apply N; now right). reflexivity.
Qed.

Lemma split_on_app sep a b :
  ~ In sep (chars a) ->
  split_on sep (a ++ String sep b) = a :: split_on sep b.
Proof.
  induction a as [|c r IH]; simpl; intros N.
  - now rewrite Ascii.eqb_refl.
  - destruct (Ascii.eqb c sep) eqn:E.
    + apply Ascii.eqb_eq in E. exfalso. apply N. now left.
    + rewrite IH by (intros H; apply N; now right). reflexivity.
Qed.

(* ===================================================================== *)
(** * blockwart/items/files.py *)
(* ===================================================================== *)

Module Files.

(** What [str.isdigit] and [int] look up in the Unicode character
    database, per character.  The database belongs to the Python runtime;
    the validators are stated over any table with these properties, which
    the real one has:
    - [isdigit_char c]: [c] has numeric type Digit or Decimal;
    - [decimal_value c]: the value of [c] if it is a decimal digit, the
      only characters [int] reads;
    - a decimal digit is a digit, with a value from 0 to 9;
    - among the ASCII characters the digits are '0' to '9', with the
      values 0 to 9. *)
Record UnicodeData : Type := mkUnicodeData {
  isdigit_char : codepoint -> bool;
  decimal_value : codepoint -> option Z;
  decimal_is_digit :
    forall c v, decimal_value c = Some v -> isdigit_char c = true;
  decimal_range :
    forall c v, decimal_value c = Some v -> (0 <= v <= 9)%Z;
  ascii_isdigit :
    forall c, (c < 128)%N ->
              isdigit_char c = ((48 <=? c)%N && (c <=? 57)%N);
  ascii_decimal :
    forall c, (48 <= c <= 57)%N -> decimal_value c = Some (Z.of_N c - 48)%Z
}.

(** Attribute values as they arrive from a bundle. *)
Inductive pyval : Type :=
| PyNone
| PyBool (b : bool)
| PyInt (z : Z)
| PyStr (s : text).

Inductive exn : Type :=
| BundleError (msg : text)
| AttributeError (attr : string)
| ValueError (literal : text).

(** [str(value)], as ['{}'.format(value)] prints it. *)
Definition format_value (value : pyval) : text :=
  match value with
  | PyNone => text_of_string "None"
  | PyBool true => text_of_string "True"
  | PyBool false => text_of_string "False"
  | PyInt z => text_of_string (DecimalString.NilZero.string_of_int (Z.to_int z))
  | PyStr s => s
  end.

(** [CONTENT_PROCESSORS = {'binary': None}]: only the keys matter here. *)
Definition CONTENT_PROCESSORS : list (text * unit) :=
  [(text_of_string "binary", tt)].

Fixpoint text_lookup {A : Type} (k : text) (m : list (text * A)) : option A :=
  match m with
  | [] => None
  | (k', v) :: r => if text_eqb k k' then Some v else text_lookup k r
  end.

(** [value not in CONTENT_PROCESSORS]: a value that is not a string is
    not among the keys. *)
Definition validator_content_type (item_id : string) (value : pyval)
  : result exn unit :=
  match match value with
        | PyStr s => text_lookup s CONTENT_PROCESSORS
        | _ => None
        end with
  | Some _ => Ok tt
  | None => Raise (BundleError
              (text_of_string "invalid content_type for "
               ++ text_of_string item_id ++ text_of_string ": '"
               ++ format_value value ++ text_of_string "'"))
  end.

Section WithUnicodeData.

Variable U : UnicodeData.

(** [str.isdigit()]: at least one character, all of them digits. *)
Definition isdigit (s : text) : bool :=
  negb (Nat.eqb (List.length s) 0) && forallb (isdigit_char U) s.

(** [int(digit)] for a one-character string: the value of a decimal
    digit, [ValueError] for any other character. *)
Definition int_of_digit (c : codepoint) : result exn Z :=
  match decimal_value U c with
  | Some v => Ok v
  | None => Raise (ValueError [c])
  end.

(** The [for digit in value] loop, raising at the first bad digit;
    [int(digit) > 7 or int(digit) < 0] converts the digit for each
    comparison it gets to. *)
Fixpoint check_digits (item_id : string) (value : text) (ds : list codepoint)
  : result exn unit :=
  match ds with
  | [] => Ok tt
  | digit :: rest =>
      a <- int_of_digit digit ;;
      if (a >? 7)%Z
      then Raise (BundleError
             (text_of_string "invalid mode for " ++ text_of_string item_id
              ++ text_of_string ": '" ++ value ++ text_of_string "'"))
      else
        b <- int_of_digit digit ;;
        if (b <? 0)%Z
        then Raise (BundleError
               (text_of_string "invalid mode for " ++ text_of_string item_id
                ++ text_of_string ": '" ++ value ++ text_of_string "'"))
        else check_digits item_id value rest
  end.

Definition validator_mode (item_id : string) (value : text)
  : result exn unit :=
  if negb (isdigit value)
  then Raise (BundleError
         (text_of_string "mode for " ++ text_of_string item_id
          ++ text_of_string " should be written as digits, got: '"
          ++ value ++ text_of_string "'"))
  else
    check_digits item_id value value ;;;
    if negb (Nat.eqb (List.length value) 3)
       && negb (Nat.eqb (List.length value) 4)
    then Raise (BundleError
           (text_of_string "mode for " ++ text_of_string item_id
            ++ text_of_string " should be three or four digits long, was: '"
            ++ value ++ text_of_string "'"))
    else Ok tt.

(** A validator as stored in the registry: it receives whatever value the
    bundle author wrote; [validator_mode] calls [value.isdigit()], which
    only strings have. *)
Definition validator : Type := string -> pyval -> result exn unit.

Definition validator_mode_any : validator := fun item_id value =>
  match value with
  | PyStr s => validator_mode item_id s
  | _ => Raise (AttributeError "isdigit")
  end.

(** [defaultdict(lambda: lambda id, value: None)] *)
Definition default_factory : validator := fun _ _ => Ok tt.

Definition ATTRIBUTE_VALIDATORS : list (string * validator) :=
  assoc_set "mode" validator_mode_any
    (assoc_set "content_type" validator_content_type []).

(** [registry[key]] on a defaultdict: a missing key is filled in with a
    fresh product of the factory, which is then returned. *)
Definition getitem (registry : list (string * validator)) (key : string)
  : validator * list (string * validator) :=
  match assoc_get key registry with
  | Some f => (f, registry)
  | None => (default_factory, assoc_set key default_factory registry)
  end.

(** [File.validate_attributes]: the registry is module-level state, so it
    is threaded through the loop over [attributes.items()]. *)
Fixpoint validate_attributes (self_id : string)
    (attributes : list (string * pyval))
    (registry : list (string * validator))
  : result exn unit * list (string * validator) :=
  match attributes with
  | [] => (Ok tt, registry)
  | (key, value) :: rest =>
      let '(f, registry') := getitem registry key in
      match f self_id value with
      | Ok _ => validate_attributes self_id rest registry'
      | Raise e => (Raise e, registry')
      end
  end.

(** An acceptable mode as the code has it: three or four characters,
    each a decimal digit of value 0 to 7. *)
Definition mode_text_ok (s : text) : Prop :=
  (List.length s = 3 \/ List.length s = 4)
  /\ forall c, In c s -> exists v, decimal_value U c = Some v /\ (0 <= v <= 7)%Z.



(** *** Facts about the validators *)


Lemma check_digits_iff item_id value ds :
  check_digits item_id value ds = Ok tt
  <-> forall c, In c ds ->
                exists v, decimal_value U c = Some v /\ (0 <= v <= 7)%Z.
Proof.
  induction ds as [|d r IH]; simpl.
  - split; [intros _ c []|reflexivity].
  - unfold int_of_digit. destruct (decimal_value U d) as [v|] eqn:D; simpl.
    + destruct (v >? 7)%Z eqn:G.
      * split; [discriminate|]. intros H.
        destruct (H d (or_introl eq_refl)) as (v' & E & R).
        assert (v' = v) by congruence. subst v'.
        apply Z.gtb_lt in G. lia.
      * destruct (v <? 0)%Z eqn:L.
        -- split; [discriminate|]. intros H.
           destruct (H d (or_introl eq_refl)) as (v' & E & R).
           assert (v' = v) by congruence. subst v'.
           apply Z.ltb_lt in L. lia.
        -- rewrite IH. split.
           ++ intros H c [<-|Hc]; [|exact (H c Hc)].
              exists v. split; [exact D|].
              apply Z.ltb_ge in L.
              assert (~ (7 < v)%Z) by (rewrite <- Z.gtb_lt; congruence).
              lia.
           ++ intros H c Hc. apply H. now right.
    + split; [discriminate|]. intros H.
      destruct (H d (or_introl eq_refl)) as (v' & E & _). congruence.
Qed.


Lemma validator_mode_iff item_id value :
  validator_mode item_id value = Ok tt <-> mode_text_ok value.
Proof.
  unfold validator_mode, mode_text_ok, isdigit.
  pose proof (check_digits_iff item_id value value) as CD.
  split.
  - destruct (negb (_ && _)); [discriminate|].
    destruct (check_digits item_id value value) as [[]|e]; simpl;
      [|discriminate].
    destruct (Nat.eqb (List.length value) 3) eqn:L3; simpl.
    + intros _. apply Nat.eqb_eq in L3. split; [now left|now apply CD].
    + destruct (Nat.eqb (List.length value) 4) eqn:L4; simpl; [|discriminate].
      intros _. apply Nat.eqb_eq in L4. split; [now right|now apply CD].
  - intros [L Dec].
    assert (forallb (isdigit_char U) value = true) as F.
    { apply forallb_forall. intros c Hc.
      destruct (Dec c Hc) as (v & E & _).
      exact (decimal_is_digit U c v E). }
    assert (Nat.eqb (List.length value) 0 = false) as N0
      by (apply Nat.eqb_neq; lia).
    rewrite F, N0. simpl.
    rewrite (proj2 CD Dec). simpl.
    destruct L as [-> | ->]; reflexivity.
Qed.



Lemma ascii_not_decimal (c : codepoint) v :
  (c < 48)%N -> decimal_value U c <> Some v.
Proof.
  intros L E. pose proof (decimal_is_digit U c v E) as D.
  rewrite (ascii_isdigit U c) in D by lia.
  apply andb_true_iff in D as [D _]. apply N.leb_le in D. lia.
Qed.


(** Keys that have a validator of their own in the registry. *)
Definition checked_key (k : string) : bool :=
  String.eqb k "content_type" || String.eqb k "mode".

(** A registry state that can arise from [ATTRIBUTE_VALIDATORS] by
    defaultdict lookups: the two real validators are in place and every
    other entry is a product of the factory. *)
Definition registry_inv (reg : list (string * validator)) : Prop :=
  assoc_get "content_type" reg = Some validator_content_type
  /\ assoc_get "mode" reg = Some validator_mode_any
  /\ forall k f, checked_key k = false -> assoc_get k reg = Some f ->
                 f = default_factory.

Lemma registry_inv_init : registry_inv ATTRIBUTE_VALIDATORS.
Proof.
  repeat split; try reflexivity.
  intros k f C. unfold checked_key in C. apply orb_false_iff in C as [C1 C2].
  unfold ATTRIBUTE_VALIDATORS. simpl. rewrite C2, C1. discriminate.
Qed.

Lemma getitem_inv reg key :
  registry_inv reg ->
  registry_inv (snd (getitem reg key))
  /\ fst (getitem reg key)
     = (if String.eqb key "content_type" then validator_content_type
        else if String.eqb key "mode" then validator_mode_any
        else default_factory).
Proof.
  intros (Hc & Hm & Hd). unfold getitem.
  destruct (String.eqb key "content_type") eqn:E1.
  { apply String.eqb_eq in E1. subst key. rewrite Hc. simpl.
    repeat split; auto. }
  destruct (String.eqb key "mode") eqn:E2.
  { apply String.eqb_eq in E2. subst key. rewrite Hm. simpl.
    repeat split; auto. }
  assert (checked_key key = false) as CK by (unfold checked_key; now rewrite E1, E2).
  apply String.eqb_neq in E1, E2.
  destruct (assoc_get key reg) as [f|] eqn:G; simpl.
  - split; [repeat split; auto|]. eapply Hd; eauto.
  - split; [|reflexivity]. repeat split.
    + rewrite assoc_get_set_neq; auto.
    + rewrite assoc_get_set_neq; auto.
    + intros k f C. destruct (String.eqb k key) eqn:E.
      * apply String.eqb_eq in E. subst k. rewrite assoc_get_set_eq. congruence.
      * apply String.eqb_neq in E. rewrite assoc_get_set_neq; auto. apply Hd; auto.
Qed.

(** The loop with the registry lookups resolved: what each key's
    validator is, whatever the registry has accumulated so far. *)
Definition validator_for (key : string) : validator :=
  if String.eqb key "content_type" then validator_content_type
  else if String.eqb key "mode" then validator_mode_any
  else default_factory.

Fixpoint validate_resolved (self_id : string)
    (attributes : list (string * pyval)) : result exn unit :=
  match attributes with
  | [] => Ok tt
  | (key, value) :: rest =>
      validator_for key self_id value ;;; validate_resolved self_id rest
  end.

Lemma validate_attributes_resolved self_id attributes : forall reg,
  registry_inv reg ->
  fst (validate_attributes self_id attributes reg)
  = validate_resolved self_id attributes.
Proof.
  induction attributes as [|[key value] rest IH]; intros reg I; [reflexivity|].
  simpl. destruct (getitem_inv reg key I) as [I' F].
  destruct (getitem reg key) as [f reg']. simpl in I', F.
  fold (validator_for key) in F. subst f.
  destruct (validator_for key self_id value) as [[]|e]; simpl; auto.
Qed.

Lemma validate_resolved_filter self_id attributes :
  validate_resolved self_id attributes
  = validate_resolved self_id
      (filter (fun kv => checked_key (fst kv)) attributes).
Proof.
  induction attributes as [|[key value] rest IH]; [reflexivity|].
  simpl. unfold checked_key at 1, validator_for at 1.
  destruct (String.eqb key "content_type") eqn:E1; simpl.
  - unfold validator_for. rewrite E1. now rewrite IH.
  - destruct (String.eqb key "mode") eqn:E2; simpl.
    + unfold validator_for. rewrite E1, E2. now rewrite IH.
    + exact IH.
Qed.

(** C10: [File.validate_attributes] checks only the keys 'content_type'
    and 'mode'.  Its outcome is the outcome on the attribute mapping
    restricted to those two keys, and a mapping without them is accepted
    whatever its values are, because every other key is served a no-op
    validator by the registry's default factory. *)
Theorem validate_attributes_checks_only_content_type_and_mode :
  (forall self_id attributes,
      fst (validate_attributes self_id attributes ATTRIBUTE_VALIDATORS)
      = fst (validate_attributes self_id
               (filter (fun kv => checked_key (fst kv)) attributes)
               ATTRIBUTE_VALIDATORS))
  /\ (forall self_id attributes,
        (forall key value, In (key, value) attributes ->
                           key <> "content_type" /\ key <> "mode") ->
        fst (validate_attributes self_id attributes ATTRIBUTE_VALIDATORS)
        = Ok tt)
  /\ (forall key, key <> "content_type" -> key <> "mode" ->
        forall self_id value,
          fst (getitem ATTRIBUTE_VALIDATORS key) self_id value = Ok tt).
Proof.
  split; [|split].
  - intros self_id attributes.
    rewrite !validate_attributes_resolved by apply registry_inv_init.
    apply validate_resolved_filter.
  - intros self_id attributes H.
    rewrite validate_attributes_resolved by apply registry_inv_init.
    induction attributes as [|[key value] rest IH]; [reflexivity|].
    simpl. destruct (H key value (or_introl eq_refl)) as [N1 N2].
    unfold validator_for.
    apply String.eqb_neq in N1, N2. rewrite N1, N2. simpl.
    apply IH. intros k v Hk. apply (H k v). now right.
  - intros key N1 N2 self_id value.
    destruct (getitem_inv ATTRIBUTE_VALIDATORS key registry_inv_init) as [_ F].
    rewrite F. apply String.eqb_neq in N1, N2. now rewrite N1, N2.
Qed.

End WithUnicodeData.

(** *** An excerpt of the Unicode character database *)

(** The decimal digits of five scripts: ASCII (U+0030), Arabic-Indic
    (U+0660), Extended Arabic-Indic (U+06F0), Devanagari (U+0966) and
    Fullwidth (U+FF10), ten consecutive characters each. *)
Definition excerpt_decimal_value (c : codepoint) : option Z :=
  if (48 <=? c)%N && (c <=? 57)%N then Some (Z.of_N c - 48)%Z
  else if (1632 <=? c)%N && (c <=? 1641)%N then Some (Z.of_N c - 1632)%Z
  else if (1776 <=? c)%N && (c <=? 1785)%N then Some (Z.of_N c - 1776)%Z
  else if (2406 <=? c)%N && (c <=? 2415)%N then Some (Z.of_N c - 2406)%Z
  else if (65296 <=? c)%N && (c <=? 65305)%N then Some (Z.of_N c - 65296)%Z
  else None.

(** Those, and the digits that are not decimal: superscript two, three
    and one (U+00B2, U+00B3, U+00B9), superscript zero and four to nine
    (U+2070, U+2074 to U+2079), subscript zero to nine (U+2080 to
    U+2089). *)
Definition excerpt_isdigit_char (c : codepoint) : bool :=
  match excerpt_decimal_value c with
  | Some _ => true
  | None =>
      N.eqb c 178 || N.eqb c 179 || N.eqb c 185 || N.eqb c 8304
      || ((8308 <=? c)%N && (c <=? 8313)%N)
      || ((8320 <=? c)%N && (c <=? 8329)%N)
  end.

Ltac split_ranges :=
  repeat match goal with
         | |- context [(?a <=? ?b)%N] =>
             let E := fresh "E" in
             destruct (N.leb_spec a b) as [E|E]; simpl
         | H : context [(?a <=? ?b)%N] |- _ =>
             let E := fresh "E" in
             destruct (N.leb_spec a b) as [E|E]; simpl in H
         | |- context [N.eqb ?a ?b] =>
             let E := fresh "E" in
             destruct (N.eqb_spec a b) as [E|E]; simpl
         end.

Lemma excerpt_decimal_is_digit c v :
  excerpt_decimal_value c = Some v -> excerpt_isdigit_char c = true.
Proof. unfold excerpt_isdigit_char. now intros ->. Qed.

Lemma excerpt_decimal_range c v :
  excerpt_decimal_value c = Some v -> (0 <= v <= 9)%Z.
Proof.
  unfold excerpt_decimal_value. split_ranges; intros [= <-]; lia.
Qed.

Lemma excerpt_ascii_isdigit c :
  (c < 128)%N ->
  excerpt_isdigit_char c = ((48 <=? c)%N && (c <=? 57)%N).
Proof.
  intros L. unfold excerpt_isdigit_char, excerpt_decimal_value.
  split_ranges; try reflexivity; lia.
Qed.

Lemma excerpt_ascii_decimal c :
  (48 <= c <= 57)%N -> excerpt_decimal_value c = Some (Z.of_N c - 48)%Z.
Proof.
  intros L. unfold excerpt_decimal_value. split_ranges; try reflexivity; lia.
Qed.

Definition unicode_excerpt : UnicodeData :=
  mkUnicodeData excerpt_isdigit_char excerpt_decimal_value
    excerpt_decimal_is_digit excerpt_decimal_range
    excerpt_ascii_isdigit excerpt_ascii_decimal.




Lemma validate_attributes_checks_only_content_type_and_mode_witness :
  fst (validate_attributes "file:/etc/motd"
         [("owner", PyInt 0); ("group", PyNone); ("source", PyBool true)]
         (ATTRIBUTE_VALIDATORS unicode_excerpt)) = Ok tt.
Proof.
  apply (proj1 (proj2 (validate_attributes_checks_only_content_type_and_mode
                         unicode_excerpt))).
  intros key value H. simpl in H.
  repeat (destruct H as [H|H];
          [injection H as <- _; split; discriminate|]).
  contradiction.
Defined.

Section MoreOnValidation.

Variable U : UnicodeData.

(** *** What a whole attribute mapping must look like *)

Lemma validator_content_type_iff item_id value :
  validator_content_type item_id value = Ok tt
  <-> value = PyStr (text_of_string "binary").
Proof.
  unfold validator_content_type.
  destruct value as [| b | z | s]; simpl; try (split; discriminate).
  destruct (text_eqb s (text_of_string "binary")) eqn:E.
  - apply text_eqb_eq in E. subst s. split; reflexivity.
  - split; [discriminate|]. intros [= ->].
    assert (text_eqb (text_of_string "binary") (text_of_string "binary") = true)
      by (now apply text_eqb_eq).
    congruence.
Qed.

Lemma validator_mode_any_iff item_id value :
  validator_mode_any U item_id value = Ok tt
  <-> exists s, value = PyStr s /\ mode_text_ok U s.
Proof.
  destruct value as [| b | z | s]; simpl.
  1-3: split; [discriminate|intros (s & E & _); discriminate E].
  rewrite (validator_mode_iff U). split.
  - intros H. exists s. auto.
  - intros (s' & [= <-] & H). exact H.
Qed.

(** An attribute mapping passes [validate_attributes] exactly when its
    'content_type', if given, is the string "binary" and its 'mode', if
    given, is a string of three or four decimal digits of value 0 to 7. *)
Theorem validate_attributes_ok_iff :
  forall self_id attributes,
    fst (validate_attributes self_id attributes (ATTRIBUTE_VALIDATORS U))
    = Ok tt
    <-> (forall key value,
            In (key, value) attributes ->
            (key = "content_type" -> value = PyStr (text_of_string "binary"))
            /\ (key = "mode" ->
                exists s, value = PyStr s /\ mode_text_ok U s)).
Proof.
  intros self_id attributes.
  rewrite (validate_attributes_resolved U) by apply registry_inv_init.
  induction attributes as [|[key value] rest IH]; simpl.
  - split; [intros _ key value []|reflexivity].
  - unfold validator_for.
    destruct (String.eqb key "content_type") eqn:E1.
    { apply String.eqb_eq in E1. subst key.
      pose proof (validator_content_type_iff self_id value) as V.
      destruct (validator_content_type self_id value) as [[]|e]; simpl.
      - rewrite IH. split.
        + intros H k v [[= <- <-]|Hin]; [|exact (H k v Hin)].
          split; [intros _; now apply V|discriminate].
        + intros H k v Hin. apply H. now right.
      - split; [discriminate|]. intros H.
        destruct (H "content_type" value (or_introl eq_refl)) as [B _].
        apply V in B; [discriminate B|reflexivity]. }
    destruct (String.eqb key "mode") eqn:E2.
    { apply String.eqb_eq in E2. subst key.
      pose proof (validator_mode_any_iff self_id value) as V.
      destruct (validator_mode_any U self_id value) as [[]|e]; simpl.
      - rewrite IH. split.
        + intros H k v [[= <- <-]|Hin]; [|exact (H k v Hin)].
          split; [discriminate|intros _; now apply V].
        + intros H k v Hin. apply H. now right.
      - split; [discriminate|]. intros H.
        destruct (H "mode" value (or_introl eq_refl)) as [_ B].
        apply V in B; [discriminate B|reflexivity]. }
    simpl. rewrite IH. apply String.eqb_neq in E1, E2. split.
    + intros H k v [[= <- <-]|Hin]; [|exact (H k v Hin)].
      split; intros; congruence.
    + intros H k v Hin. apply H. now right.
Qed.

(** *** The registry as module-level state *)

Lemma validate_attributes_keeps_inv self_id attributes : forall reg,
  registry_inv U reg ->
  registry_inv U (snd (validate_attributes self_id attributes reg)).
Proof.
  induction attributes as [|[key value] rest IH]; intros reg I; [exact I|].
  simpl. destruct (getitem_inv U reg key I) as [I' _].
  destruct (getitem reg key) as [f reg']. simpl in I'.
  destruct (f self_id value); [now apply IH|exact I'].
Qed.

(** Looking up unknown keys fills the registry with no-op validators,
    but that never shows: after any number of earlier validations a
    validation comes out as it does on the untouched registry, and the
    'mode' and 'content_type' entries are the ones installed at import. *)
Theorem validate_attributes_ignores_registry_growth :
  forall (earlier : list (string * list (string * pyval)))
         (self_id : string) (attributes : list (string * pyval)),
    let registry :=
      fold_left (fun reg call =>
                   snd (validate_attributes (fst call) (snd call) reg))
        earlier (ATTRIBUTE_VALIDATORS U) in
    fst (validate_attributes self_id attributes registry)
    = fst (validate_attributes self_id attributes (ATTRIBUTE_VALIDATORS U))
    /\ assoc_get "mode" registry = Some (validator_mode_any U)
    /\ assoc_get "content_type" registry = Some validator_content_type.
Proof.
  intros earlier self_id attributes registry.
  assert (registry_inv U registry) as I.
  { unfold registry. generalize (registry_inv_init U).
    generalize (ATTRIBUTE_VALIDATORS U).
    induction earlier as [|[id0 attrs0] r IH]; intros reg I; [exact I|].
    simpl. apply IH. now apply validate_attributes_keeps_inv. }
  split.
  - rewrite !(validate_attributes_resolved U);
      [reflexivity|apply registry_inv_init|exact I].
  - destruct I as (C & M & _). auto.
Qed.

(** ** [stat] *)

(** [str.zfill(width)]: zeros are put in front until the string has
    [width] characters, after a leading sign if there is one. *)
Definition zfill (width : nat) (s : text) : text :=
  match s with
  | c :: r =>
      if N.eqb c 43%N || N.eqb c 45%N
      then c :: (repeat 48%N (width - List.length s) ++ r)
      else repeat 48%N (width - List.length s) ++ s
  | [] => repeat 48%N width
  end.

(** [str.split(sep)] on text, for a one-character separator. *)
Fixpoint text_split (sep : codepoint) (t : text) : list text :=
  match t with
  | [] => [[]]
  | c :: r =>
      if N.eqb c sep then [] :: text_split sep r
      else match text_split sep r with
           | [] => [[c]]
           | p :: ps => (c :: p) :: ps
           end
  end.

Record file_stat : Type := mkFileStat {
  stat_owner : text;
  stat_group : text;
  stat_mode : text
}.

(** [stat], from the standard output of the remote
    [stat --printf '%U:%G:%a'] on: the unpacking of the split raises
    [ValueError] unless there are exactly three pieces. *)
Definition stat_of_stdout (stdout : text) : result exn file_stat :=
  match text_split 58%N stdout with
  | [owner; group; mode] => Ok (mkFileStat owner group (zfill 4 mode))
  | _ :: _ :: _ :: _ :: _ =>
      Raise (ValueError (text_of_string "too many values to unpack"))
  | _ => Raise (ValueError (text_of_string "need more values to unpack"))
  end.

Lemma zfill_length width s :
  List.length (zfill width s) = Nat.max width (List.length s).
Proof.
  unfold zfill. destruct s as [|c r].
  - cbn [List.length]. rewrite repeat_length. symmetry. apply Nat.max_0_r.
  - destruct (N.eqb c 43%N || N.eqb c 45%N); cbn [List.length];
      rewrite ?length_app, ?repeat_length; cbn [List.length];
      destruct (Nat.max_spec width (S (List.length r))) as [[? ->]|[? ->]];
      lia.
Qed.

Lemma zfill_long_enough width s :
  width <= List.length s -> zfill width s = s.
Proof.
  intros H. unfold zfill. destruct s as [|c r].
  - simpl in H. now replace width with 0 by lia.
  - replace (width - List.length (c :: r)) with 0 by lia.
    simpl. now destruct (N.eqb c 43%N || N.eqb c 45%N).
Qed.

Lemma text_split_no_sep sep t :
  ~ In sep t -> text_split sep t = [t].
Proof.
  induction t as [|c r IH]; simpl; intros N; [reflexivity|].
  destruct (N.eqb_spec c sep) as [E|E].
  - exfalso. apply N. now left.
  - rewrite IH by (intros H; apply N; now right). reflexivity.
Qed.

Lemma text_split_app sep a b :
  ~ In sep a ->
  text_split sep (a ++ sep :: b) = a :: text_split sep b.
Proof.
  induction a as [|c r IH]; simpl; intros N.
  - now rewrite N.eqb_refl.
  - destruct (N.eqb_spec c sep) as [E|E].
    + exfalso. apply N. now left.
    + rewrite IH by (intros H; apply N; now right). reflexivity.
Qed.

(** When the remote side prints owner, group and mode with colons in
    between (none of the three holding a colon), [stat] reports that
    owner and group, and the mode filled up with zeros to four
    characters; a mode of four or more characters is reported as it is. *)
Theorem stat_reads_owner_group_mode :
  forall owner group mode : text,
    ~ In 58%N owner ->
    ~ In 58%N group ->
    ~ In 58%N mode ->
    stat_of_stdout (owner ++ 58%N :: group ++ 58%N :: mode)
    = Ok (mkFileStat owner group (zfill 4 mode))
    /\ List.length (zfill 4 mode) = Nat.max 4 (List.length mode)
    /\ (4 <= List.length mode -> zfill 4 mode = mode).
Proof.
  intros owner group mode No Ng Nm. split; [|split].
  - unfold stat_of_stdout.
    rewrite (text_split_app _ _ _ No), (text_split_app _ _ _ Ng),
      (text_split_no_sep _ _ Nm).
    reflexivity.
  - apply zfill_length.
  - apply zfill_long_enough.
Qed.

(** A mode that [validator_mode] accepts is still accepted after [stat]'s
    zero filling, and then has four digits: the mode a bundle may declare
    and the mode [stat] reports are comparable as strings. *)
Theorem zfill_keeps_mode_valid :
  forall (item_id : string) (mode : text),
    validator_mode U item_id mode = Ok tt ->
    validator_mode U item_id (zfill 4 mode) = Ok tt
    /\ List.length (zfill 4 mode) = 4.
Proof.
  intros item_id mode H. apply validator_mode_iff in H as [L Dec].
  assert (zfill 4 mode = repeat 48%N (4 - List.length mode) ++ mode) as Z.
  { unfold zfill. destruct mode as [|c r]; [simpl in L; lia|].
    destruct (N.eqb c 43%N || N.eqb c 45%N) eqn:E; [|reflexivity].
    exfalso. destruct (Dec c (or_introl eq_refl)) as (v & D & _).
    apply (ascii_not_decimal U c v); [|exact D].
    apply orb_true_iff in E as [E|E]; apply N.eqb_eq in E; lia. }
  assert (List.length (zfill 4 mode) = 4) as L4.
  { rewrite zfill_length.
    destruct (Nat.max_spec 4 (List.length mode)) as [[? ->]|[? ->]]; lia. }
  split; [|exact L4].
  apply validator_mode_iff. split; [now right|].
  intros c Hc. rewrite Z in Hc.
  apply in_app_or in Hc as [Hc|Hc]; [|exact (Dec c Hc)].
  apply repeat_spec in Hc. subst c.
  exists 0%Z. split; [|lia].
  rewrite (ascii_decimal U 48%N) by lia. reflexivity.
Qed.

End MoreOnValidation.

Lemma stat_reads_owner_group_mode_witness :
  stat_of_stdout (text_of_string "root:wheel:644")
  = Ok (mkFileStat (text_of_string "root") (text_of_string "wheel")
          (text_of_string "0644")).
Proof.
  refine (proj1 (stat_reads_owner_group_mode (text_of_string "root")
                   (text_of_string "wheel") (text_of_string "644") _ _ _));
    vm_compute; intros H;
    repeat (destruct H as [H|H]; [discriminate H|]); exact H.
Defined.

Lemma zfill_keeps_mode_valid_witness :
  validator_mode unicode_excerpt "file:/etc/motd"
    (zfill 4 (text_of_string "644")) = Ok tt
  /\ List.length (zfill 4 (text_of_string "644")) = 4.
Proof.
  apply (zfill_keeps_mode_valid unicode_excerpt "file:/etc/motd"
           (text_of_string "644")).
  reflexivity.
Defined.

End Files.

(* ===================================================================== *)
(** * bundlewrap/utils/metastack.py *)
(* ===================================================================== *)

Module Metastack.

(** Metadata values: scalars, lists and string-keyed mappings.  A mapping
    is an insertion-ordered association list; Python keeps its keys
    distinct ([wf_value]).  Floating-point scalars are left out. *)
Inductive value : Type :=
| VNull
| VBool (b : bool)
| VInt (z : Z)
| VStr (s : string)
| VList (items : list value)
| VDict (entries : list (string * value)).

(** The read-only mirror of [value] that freezing produces. *)
Inductive frozen : Type :=
| FNull
| FBool (b : bool)
| FInt (z : Z)
| FStr (s : string)
| FList (items : list frozen)
| FDict (entries : list (string * frozen)).

Inductive exn : Type :=
| KeyError (key : string)
| TypeError
| InvalidMetadata
| MetastackKeyError (msg : string).

Fixpoint keys_distinct (ks : list string) : bool :=
  match ks with
  | [] => true
  | k :: r => negb (existsb (String.eqb k) r) && keys_distinct r
  end.

(** The representation invariant of Python dicts, all the way down. *)
Fixpoint wf_value (v : value) : bool :=
  match v with
  | VList items => forallb wf_value items
  | VDict entries =>
      keys_distinct (map fst entries)
      && (fix wf_entries (es : list (string * value)) : bool :=
            match es with
            | [] => true
            | (_, x) :: r => wf_value x && wf_entries r
            end) entries
  | _ => true
  end.

(** Python's [==] on metadata values: mappings compare without regard
    to key order, lists element by element, and a boolean equals the
    integer 0 or 1 it stands for. *)
Fixpoint py_eq (a b : value) {struct a} : bool :=
  match a, b with
  | VNull, VNull => true
  | VBool x, VBool y => Bool.eqb x y
  | VBool x, VInt y => Z.eqb (Z.b2z x) y
  | VInt x, VBool y => Z.eqb x (Z.b2z y)
  | VInt x, VInt y => Z.eqb x y
  | VStr x, VStr y => String.eqb x y
  | VList xs, VList ys =>
      (fix eq_items (xs : list value) (ys : list value) : bool :=
         match xs, ys with
         | [], [] => true
         | x :: xr, y :: yr => py_eq x y && eq_items xr yr
         | _, _ => false
         end) xs ys
  | VDict xs, VDict ys =>
      Nat.eqb (List.length xs) (List.length ys)
      && (fix eq_entries (xs : list (string * value)) : bool :=
            match xs with
            | [] => true
            | (k, x) :: xr =>
                match assoc_get k ys with
                | Some y => py_eq x y && eq_entries xr
                | None => false
                end
            end) xs
  | _, _ => false
  end.

(** Modelled from the spec: [validate_metadata] of the absent
    [bundlewrap/metadata.py], per section 4.A "validate(layer)": the root
    of a layer is a mapping (keys are strings by typing here). *)
Definition validate_metadata (layer : value) : result exn unit :=
  match layer with
  | VDict _ => Ok tt
  | _ => Raise InvalidMetadata
  end.

(** Modelled from the spec: [value_at_key_path] of the absent
    [bundlewrap/metadata.py], per section 4.A "value_at_path": descend
    mapping by mapping, failing when a segment is missing or the descent
    meets a non-mapping. *)
Fixpoint value_at_key_path (v : value) (path : list string)
  : result exn value :=
  match path with
  | [] => Ok v
  | k :: rest =>
      match v with
      | VDict entries =>
          match assoc_get k entries with
          | Some inner => value_at_key_path inner rest
          | None => Raise (KeyError k)
          end
      | _ => Raise (KeyError k)
      end
  end.

(** Modelled from the spec: [merge_dict] of the absent
    [bundlewrap/utils/dicts.py], per section 4.A "deep_merge": two
    mappings give a new mapping over the union of the keys, merging
    recursively where both have the key; in every other case (including
    two lists) the overlay wins. *)
Fixpoint merge_dict (base update : value) {struct update} : value :=
  match update with
  | VDict upd =>
      match base with
      | VDict b =>
          VDict
            ((fix merge_entries (acc upd : list (string * value))
                : list (string * value) :=
                match upd with
                | [] => acc
                | (k, v) :: r =>
                    merge_entries
                      (assoc_set k
                         (match assoc_get k acc with
                          | Some bv => merge_dict bv v
                          | None => v
                          end) acc) r
                end) b upd)
      | _ => update
      end
  | _ => update
  end.

(** Modelled from the spec: [freeze_object] of the absent
    [bundlewrap/utils/dicts.py], per section 4.A "deep_freeze": the same
    tree with every mapping and list read-only. *)
Fixpoint freeze_object (v : value) : frozen :=
  match v with
  | VNull => FNull
  | VBool b => FBool b
  | VInt z => FInt z
  | VStr s => FStr s
  | VList items => FList (map freeze_object items)
  | VDict entries =>
      FDict ((fix freeze_entries (es : list (string * value))
                : list (string * frozen) :=
                match es with
                | [] => []
                | (k, x) :: r => (k, freeze_object x) :: freeze_entries r
                end) entries)
  end.

(** [self._layers]: identifier to layer, in insertion order. *)
Record t : Type := mk { _layers : list (string * value) }.

(** [Metastack()] *)
Definition init : t := mk [].

(** The [path] argument: a string to be split on '/', or a sequence. *)
Inductive path_arg : Type :=
| PathStr (s : string)
| PathSeq (segments : list string).

Definition path_segments (path : path_arg) : list string :=
  match path with
  | PathStr s => split_on "/" s
  | PathSeq segments => segments
  end.

(** [result['data']] *)
Definition getitem (d : value) (key : string) : result exn value :=
  match d with
  | VDict entries =>
      match assoc_get key entries with
      | Some v => Ok v
      | None => Raise (KeyError key)
      end
  | _ => Raise TypeError
  end.

(** One turn of the [for layer in self._layers.values()] loop of [get],
    on the loop state [(result, undef)]. *)
Definition get_step (path : list string) (st : value * bool) (layer : value)
  : value * bool :=
  let '(result, undef) := st in
  match value_at_key_path layer path with
  | Raise _ => st
  | Ok value =>
      if undef then (VDict [("data", value)], false)
      else (merge_dict result (VDict [("data", value)]), undef)
  end.

(** [Metastack.get]: the caller's default comes back as it is (left),
    a found value comes back frozen (right). *)
Definition get {D : Type} (self : t) (path : path_arg) (default : D)
    (use_default : bool) : result exn (D + frozen) :=
  let path := path_segments path in
  let '(result, undef) :=
    fold_left (get_step path) (map snd (_layers self)) (VNull, true) in
  if undef then
    if use_default then Ok (inl default)
    else Raise (MetastackKeyError
                  ("Path " ++ String.concat "/" path ++ " not in metastack"))
  else
    data <- getitem result "data" ;;
    Ok (inr (freeze_object data)).

(** [Metastack.has] *)
Definition has (self : t) (path : path_arg) : result exn bool :=
  match get self path "<unused>" false with
  | Ok _ => Ok true
  | Raise (MetastackKeyError _) => Ok false
  | Raise e => Raise e
  end.

(** [Metastack._as_dict] *)
Definition _as_dict (self : t) : value :=
  fold_left merge_dict (map snd (_layers self)) (VDict []).

(** [Metastack._set_layer]: the changed flag and the updated stack. *)
Definition _set_layer (self : t) (identifier : string) (new_layer : value)
  : result exn (bool * t) :=
  validate_metadata new_layer ;;;
  let changed :=
    negb (py_eq (match assoc_get identifier (_layers self) with
                 | Some stored => stored
                 | None => VDict []
                 end) new_layer) in
  Ok (changed, mk (assoc_set identifier new_layer (_layers self))).

(** *** Induction over nested values *)

Section value_nested_ind.
Variable P : value -> Prop.
Hypothesis HNull : P VNull.
Hypothesis HBool : forall b, P (VBool b).
Hypothesis HInt : forall z, P (VInt z).
Hypothesis HStr : forall s, P (VStr s).
Hypothesis HList : forall items, Forall P items -> P (VList items).
Hypothesis HDict :
  forall entries, Forall (fun kv => P (snd kv)) entries -> P (VDict entries).

Fixpoint value_nested_ind (v : value) : P v :=
  match v with
  | VNull => HNull
  | VBool b => HBool b
  | VInt z => HInt z
  | VStr s => HStr s
  | VList items =>
      HList items
        ((fix all (l : list value) : Forall P l :=
            match l with
            | [] => Forall_nil _
            | x :: r => Forall_cons x (value_nested_ind x) (all r)
            end) items)
  | VDict entries =>
      HDict entries
        ((fix all (l : list (string * value))
            : Forall (fun kv => P (snd kv)) l :=
            match l with
            | [] => Forall_nil _
            | (k, x) :: r =>
                Forall_cons (k, x) (value_nested_ind x) (all r)
            end) entries)
  end.
End value_nested_ind.

(** The local loops of [py_eq] and [wf_value], named. *)
Fixpoint eq_items (xs ys : list value) : bool :=
  match xs, ys with
  | [], [] => true
  | x :: xr, y :: yr => py_eq x y && eq_items xr yr
  | _, _ => false
  end.

Fixpoint eq_entries (ys xs : list (string * value)) : bool :=
  match xs with
  | [] => true
  | (k, x) :: xr =>
      match assoc_get k ys with
      | Some y => py_eq x y && eq_entries ys xr
      | None => false
      end
  end.

Fixpoint wf_entries (es : list (string * value)) : bool :=
  match es with
  | [] => true
  | (_, x) :: r => wf_value x && wf_entries r
  end.

Lemma py_eq_list xs ys : py_eq (VList xs) (VList ys) = eq_items xs ys.
Proof.
  revert ys. induction xs as [|x xr IH]; intros [|y yr]; try reflexivity.
  all: simpl; f_equal; apply (IH yr).
Qed.

Lemma py_eq_dict xs ys :
  py_eq (VDict xs) (VDict ys)
  = Nat.eqb (List.length xs) (List.length ys) && eq_entries ys xs.
Proof.
  simpl. f_equal.
  induction xs as [|[k x] xr IH]; [reflexivity|].
  simpl. destruct (assoc_get k ys); [|reflexivity]. now rewrite IH.
Qed.

Lemma wf_value_dict es :
  wf_value (VDict es) = keys_distinct (map fst es) && wf_entries es.
Proof.
  reflexivity.
Qed.

Lemma existsb_eqb_false k ks :
  existsb (String.eqb k) ks = false -> ~ In k ks.
Proof.
  intros E H. assert (existsb (String.eqb k) ks = true) as T.
  { apply existsb_exists. exists k. split; [exact H|apply String.eqb_refl]. }
  congruence.
Qed.

Lemma assoc_get_in {A} k (x : A) es :
  keys_distinct (map fst es) = true -> In (k, x) es ->
  assoc_get k es = Some x.
Proof.
  induction es as [|[k' x'] r IH]; simpl; intros D H; [contradiction|].
  apply andb_true_iff in D as [D1 D2].
  destruct H as [H|H].
  - injection H as -> ->. now rewrite String.eqb_refl.
  - destruct (String.eqb k k') eqn:E.
    + apply String.eqb_eq in E. subst k'.
      apply negb_true_iff in D1. apply existsb_eqb_false in D1.
      exfalso. apply D1. apply in_map_iff. exists (k, x). auto.
    + auto.
Qed.

Lemma assoc_get_none_not_in {A} k (es : list (string * A)) :
  assoc_get k es = None -> ~ In k (map fst es).
Proof.
  induction es as [|[k' x'] r IH]; simpl; intros G H; [contradiction|].
  destruct (String.eqb k k') eqn:E; [discriminate|].
  apply String.eqb_neq in E. destruct H as [H|H]; [congruence|exact (IH G H)].
Qed.

(** On well-formed values Python's [==] is reflexive. *)
Lemma py_eq_refl (v : value) : wf_value v = true -> py_eq v v = true.
Proof.
  induction v as [| b | z | s | items IH | entries IH] using value_nested_ind;
    intros W.
  - reflexivity.
  - apply Bool.eqb_reflx.
  - apply Z.eqb_refl.
  - apply String.eqb_refl.
  - rewrite py_eq_list. simpl in W.
    induction IH as [|x r Hx _ IHr]; [reflexivity|].
    simpl in W. apply andb_true_iff in W as [W1 W2].
    simpl. now rewrite Hx, IHr.
  - rewrite py_eq_dict, Nat.eqb_refl. simpl.
    rewrite wf_value_dict in W. apply andb_true_iff in W as [D W].
    assert (forall xs, incl xs entries -> eq_entries entries xs = true) as G.
    { induction xs as [|[k x] xr IHx]; intros I; [reflexivity|].
      simpl.
      assert (In (k, x) entries) as Hin by (apply I; now left).
      rewrite (assoc_get_in k x entries D Hin).
      rewrite IHx by (intros e He; apply I; now right).
      rewrite andb_true_r.
      rewrite Forall_forall in IH. apply (IH (k, x) Hin).
      clear - W Hin. induction entries as [|[k' x'] r IHr]; [contradiction|].
      simpl in W. apply andb_true_iff in W as [W1 W2].
      destruct Hin as [H|H]; [now injection H as _ <-|auto]. }
    apply G. apply incl_refl.
Qed.

Lemma py_eq_empty_dict es : py_eq (VDict []) (VDict es) = true <-> es = [].
Proof.
  rewrite py_eq_dict. simpl. rewrite andb_true_r.
  destruct es; simpl; split; congruence.
Qed.

Lemma assoc_set_idem {A} k (v : A) m :
  assoc_set k v (assoc_set k v m) = assoc_set k v m.
Proof.
  induction m as [|[k' v'] r IH]; simpl.
  - now rewrite String.eqb_refl.
  - destruct (String.eqb k k') eqn:E; simpl.
    + now rewrite String.eqb_refl.
    + now rewrite E, IH.
Qed.

(** *** The loop of [get] *)

(** The values the layers contribute at a path, in layer order. *)
Fixpoint contributions (path : list string) (layers : list value)
  : list value :=
  match layers with
  | [] => []
  | layer :: rest =>
      match value_at_key_path layer path with
      | Ok v => v :: contributions path rest
      | Raise _ => contributions path rest
      end
  end.

Lemma merge_dict_data (a b : value) :
  merge_dict (VDict [("data", a)]) (VDict [("data", b)])
  = VDict [("data", merge_dict a b)].
Proof. reflexivity. Qed.

Lemma get_step_defined path acc layer :
  get_step path (VDict [("data", acc)], false) layer
  = match value_at_key_path layer path with
    | Ok v => (VDict [("data", merge_dict acc v)], false)
    | Raise _ => (VDict [("data", acc)], false)
    end.
Proof.
  unfold get_step. destruct (value_at_key_path layer path); reflexivity.
Qed.

Lemma get_step_undef path layer :
  get_step path (VNull, true) layer
  = match value_at_key_path layer path with
    | Ok v => (VDict [("data", v)], false)
    | Raise _ => (VNull, true)
    end.
Proof.
  unfold get_step. destruct (value_at_key_path layer path); reflexivity.
Qed.

Lemma get_loop_defined path layers : forall acc,
  fold_left (get_step path) layers (VDict [("data", acc)], false)
  = (VDict [("data", fold_left merge_dict (contributions path layers) acc)],
     false).
Proof.
  induction layers as [|layer rest IH]; intros acc; [reflexivity|].
  cbn [fold_left contributions]. rewrite get_step_defined.
  destruct (value_at_key_path layer path) as [v|e]; cbn [fold_left]; apply IH.
Qed.

Lemma get_loop_undef path layers :
  fold_left (get_step path) layers (VNull, true)
  = match contributions path layers with
    | [] => (VNull, true)
    | v :: vs => (VDict [("data", fold_left merge_dict vs v)], false)
    end.
Proof.
  induction layers as [|layer rest IH]; [reflexivity|].
  cbn [fold_left contributions]. rewrite get_step_undef.
  destruct (value_at_key_path layer path) as [v|e].
  - apply get_loop_defined.
  - exact IH.
Qed.

(** C3: [get] walks the layers in insertion order and skips those that
    lack the path.  If some layer has it, the outcome is the frozen
    in-order merge of the values found, earlier ones as base and later
    ones as overlay; if none has it, the outcome is the default when
    [use_default] holds and [MetastackKeyError] otherwise.  On the empty
    stack [get] gives the default and [has] gives false. *)
Theorem get_is_frozen_in_order_merge :
  (forall (D : Type) (self : t) (path : path_arg) (default : D)
          (use_default : bool),
      get self path default use_default
      = match contributions (path_segments path) (map snd (_layers self)) with
        | [] =>
            if use_default then Ok (inl default)
            else Raise (MetastackKeyError
                          ("Path " ++ String.concat "/" (path_segments path)
                           ++ " not in metastack"))
        | first :: later =>
            Ok (inr (freeze_object (fold_left merge_dict later first)))
        end)
  /\ (forall (D : Type) (path : path_arg) (default : D),
        get init path default true = Ok (inl default))
  /\ (forall path, has init path = Ok false).
Proof.
  split; [|split; reflexivity].
  intros D self path default use_default. unfold get.
  rewrite get_loop_undef.
  destruct (contributions (path_segments path) (map snd (_layers self)));
    reflexivity.
Qed.

(** The layer-override scenario: "base" holds a/x = 1 and a/y = 2,
    "over" holds a/y = 9. *)
Definition base_layer : value :=
  VDict [("a", VDict [("x", VInt 1); ("y", VInt 2)])].
Definition over_layer : value := VDict [("a", VDict [("y", VInt 9)])].
Definition two_layers : t := mk [("base", base_layer); ("over", over_layer)].

Example layer_override :
  _set_layer init "base" base_layer = Ok (true, mk [("base", base_layer)])
  /\ _set_layer (mk [("base", base_layer)]) "over" over_layer
     = Ok (true, two_layers)
  /\ get two_layers (PathStr "a") VNull true
     = Ok (inr (FDict [("x", FInt 1); ("y", FInt 9)]))
  /\ get two_layers (PathStr "a/y") VNull true = Ok (inr (FInt 9))
  /\ get two_layers (PathStr "a/z") (VInt 42) true = Ok (inl (VInt 42))
  /\ has two_layers (PathStr "a/x") = Ok true
  /\ has two_layers (PathSeq ["b"]) = Ok false.
Proof. repeat split; reflexivity. Qed.

(** *** [_set_layer] and its changed flag *)

(** The claim about the changed flag as the specification words it: true
    exactly when nothing was stored under the identifier or the stored
    layer differs from the new one. *)
Definition changed_iff_differs_or_absent : Prop :=
  forall (self self' : t) (identifier : string) (new_layer : value)
         (changed : bool),
    _set_layer self identifier new_layer = Ok (changed, self') ->
    (changed = true
     <-> (assoc_get identifier (_layers self) = None
          \/ exists stored,
               assoc_get identifier (_layers self) = Some stored
               /\ py_eq stored new_layer = false)).

(** A fresh identifier with an empty layer is reported as unchanged. *)
Lemma set_layer_fresh_empty_unchanged :
  _set_layer init "reactor" (VDict []) = Ok (false, mk [("reactor", VDict [])])
  /\ ~ changed_iff_differs_or_absent.
Proof.
  split; [reflexivity|].
  intros C.
  specialize (C init (mk [("reactor", VDict [])]) "reactor" (VDict []) false
                eq_refl).
  destruct C as [_ C]. discriminate C. now left.
Qed.

(** C7 (amended): the changed flag compares the new layer with what is
    stored under the identifier, an identifier without a layer counting
    as the empty mapping.  So for a stored layer the flag is true exactly
    when the two are unequal, for a fresh identifier exactly when the new
    layer is a non-empty mapping, and a second [_set_layer] with the same
    identifier and layer reports no change and leaves the stack as it
    is. *)
Theorem set_layer_changed_flag :
  forall (self self' : t) (identifier : string) (new_layer : value)
         (changed : bool),
    _set_layer self identifier new_layer = Ok (changed, self') ->
    (forall stored,
        assoc_get identifier (_layers self) = Some stored ->
        (changed = true <-> py_eq stored new_layer = false))
    /\ (assoc_get identifier (_layers self) = None ->
        (changed = true <-> new_layer <> VDict []))
    /\ (wf_value new_layer = true ->
        _set_layer self' identifier new_layer = Ok (false, self')).
Proof.
  intros self self' identifier new_layer changed.
  unfold _set_layer.
  destruct new_layer as [| | | | |es]; try discriminate. simpl.
  intros [= <- <-]. split; [|split].
  - intros stored ->. now rewrite negb_true_iff.
  - intros ->. rewrite negb_true_iff.
    pose proof (py_eq_empty_dict es) as E. split.
    + intros F [= ->]. destruct E as [_ E]. rewrite E in F; congruence.
    + intros N. destruct (py_eq (VDict []) (VDict es)) eqn:Q; [|reflexivity].
      exfalso. apply N. f_equal. now apply E.
  - intros W. cbn [_layers]. rewrite assoc_get_set_eq, assoc_set_idem.
    now rewrite (py_eq_refl (VDict es) W).
Qed.

Lemma set_layer_changed_flag_witness :
  (false = true <-> py_eq over_layer over_layer = false)
  /\ _set_layer two_layers "over" over_layer = Ok (false, two_layers).
Proof.
  destruct (set_layer_changed_flag two_layers two_layers "over" over_layer
              false eq_refl) as (Stored & _ & Again).
  split; [exact (Stored over_layer eq_refl)|exact (Again eq_refl)].
Defined.

(** *** [has] against [get] *)

Lemma get_by_contributions {D : Type} (self : t) (path : path_arg)
    (default : D) (use_default : bool) :
  get self path default use_default
  = match contributions (path_segments path) (map snd (_layers self)) with
    | [] =>
        if use_default then Ok (inl default)
        else Raise (MetastackKeyError
                      ("Path " ++ String.concat "/" (path_segments path)
                       ++ " not in metastack"))
    | first :: later =>
        Ok (inr (freeze_object (fold_left merge_dict later first)))
    end.
Proof.
  unfold get. rewrite get_loop_undef.
  destruct (contributions (path_segments path) (map snd (_layers self)));
    reflexivity.
Qed.

(** [has] never raises, and it tells what [get] will do: where [has] is
    true, [get] returns a frozen value whatever the default and the
    [use_default] flag are; where it is false, [get] returns the default
    or, with [use_default] off, raises [MetastackKeyError]. *)
Theorem has_tells_what_get_does :
  forall (self : t) (path : path_arg),
    (has self path = Ok true \/ has self path = Ok false)
    /\ (has self path = Ok true ->
        forall (D : Type) (default : D) (use_default : bool),
        exists f, get self path default use_default = Ok (inr f))
    /\ (has self path = Ok false ->
        forall (D : Type) (default : D),
          get self path default true = Ok (inl default)
          /\ exists msg,
               get self path default false = Raise (MetastackKeyError msg)).
Proof.
  intros self path. unfold has.
  rewrite (get_by_contributions self path "<unused>" false).
  destruct (contributions (path_segments path) (map snd (_layers self)))
    as [|first later] eqn:E.
  - split; [now right|]. split; [discriminate|].
    intros _ D default. rewrite !get_by_contributions, E. eauto.
  - split; [now left|]. split; [|discriminate].
    intros _ D default use_default. rewrite get_by_contributions, E. eauto.
Qed.

(** *** Paths as strings and as sequences *)

Lemma split_on_not_nil sep s : split_on sep s <> [].
Proof.
  destruct s as [|c r]; simpl; [discriminate|].
  destruct (Ascii.eqb c sep); [discriminate|].
  destruct (split_on sep r); discriminate.
Qed.

Lemma concat_split_on (sep : ascii) (s : string) :
  String.concat (String sep EmptyString) (split_on sep s) = s.
Proof.
  induction s as [|c r IH]; [reflexivity|].
  simpl. destruct (Ascii.eqb c sep) eqn:E.
  - apply Ascii.eqb_eq in E. subst c.
    destruct (split_on sep r) as [|p ps] eqn:S;
      [now apply split_on_not_nil in S|].
    simpl in *. now rewrite IH.
  - destruct (split_on sep r) as [|p ps] eqn:S;
      [now apply split_on_not_nil in S|].
    destruct ps as [|q qs]; simpl in *; now rewrite <- IH.
Qed.

Lemma split_on_concat (sep : ascii) (segments : list string) :
  segments <> [] ->
  (forall seg, In seg segments -> ~ In sep (chars seg)) ->
  split_on sep (String.concat (String sep EmptyString) segments) = segments.
Proof.
  induction segments as [|seg rest IH]; intros N H; [contradiction|].
  destruct rest as [|seg' rest'].
  - simpl. apply split_on_no_sep. apply H. now left.
  - change (String.concat (String sep EmptyString) (seg :: seg' :: rest'))
      with (seg ++ String sep
                     (String.concat (String sep EmptyString) (seg' :: rest')))%string.
    rewrite split_on_app by (apply H; now left).
    rewrite IH; [reflexivity|discriminate|].
    intros x Hx. apply H. now right.
Qed.

(** A path written "a/b/c" and the sequence of its segments are the same
    path to [get] and [has], for segments that hold no slash; and
    joining what the split of any path string gives returns that string,
    so the message of [MetastackKeyError] names the path as it was
    written. *)
Theorem path_string_is_its_segments :
  forall (segments : list string),
    segments <> [] ->
    (forall seg, In seg segments -> ~ In "/"%char (chars seg)) ->
    path_segments (PathStr (String.concat "/" segments)) = segments
    /\ (forall (self : t) (D : Type) (default : D) (use_default : bool),
          get self (PathStr (String.concat "/" segments)) default use_default
          = get self (PathSeq segments) default use_default)
    /\ (forall self,
          has self (PathStr (String.concat "/" segments))
          = has self (PathSeq segments))
    /\ (forall s, String.concat "/" (path_segments (PathStr s)) = s).
Proof.
  intros segments N H.
  assert (path_segments (PathStr (String.concat "/" segments)) = segments)
    as E by (apply split_on_concat; assumption).
  split; [exact E|]. split; [|split].
  - intros self D default use_default.
    rewrite !get_by_contributions, E. reflexivity.
  - intros self. unfold has. rewrite !get_by_contributions, E. reflexivity.
  - intros s. apply concat_split_on.
Qed.

Lemma path_string_is_its_segments_witness :
  path_segments (PathStr "a/b") = ["a"; "b"]
  /\ has two_layers (PathStr "a/x") = has two_layers (PathSeq ["a"; "x"]).
Proof.
  assert (forall seg, In seg ["a"; "x"] -> ~ In "/"%char (chars seg)) as H.
  { intros seg [<-|[<-|[]]] [E|[]]; discriminate E. }
  assert (forall seg, In seg ["a"; "b"] -> ~ In "/"%char (chars seg)) as H'.
  { intros seg [<-|[<-|[]]] [E|[]]; discriminate E. }
  split.
  - exact (proj1 (path_string_is_its_segments ["a"; "b"]
                    ltac:(discriminate) H')).
  - exact (proj1 (proj2 (proj2 (path_string_is_its_segments ["a"; "x"]
                                  ltac:(discriminate) H))) two_layers).
Defined.

(** *** Where [_set_layer] puts a layer *)

Lemma assoc_set_keys {A : Type} k (v : A) m :
  map fst (assoc_set k v m)
  = match assoc_get k m with
    | Some _ => map fst m
    | None => map fst m ++ [k]
    end.
Proof.
  induction m as [|[k' v'] r IH]; simpl; [reflexivity|].
  destruct (String.eqb k k') eqn:E; simpl.
  - apply String.eqb_eq in E. now subst k'.
  - rewrite IH. now destruct (assoc_get k r).
Qed.

Lemma assoc_set_fresh {A : Type} k (v : A) m :
  assoc_get k m = None -> assoc_set k v m = m ++ [(k, v)].
Proof.
  induction m as [|[k' v'] r IH]; simpl; [reflexivity|].
  destruct (String.eqb k k'); [discriminate|].
  intros H. now rewrite IH.
Qed.

(** After a successful [_set_layer] the layer is the one stored under the
    identifier and the layers of all other identifiers are untouched; an
    identifier that was there keeps its place in the order, a new one
    goes to the end. *)
Theorem set_layer_keeps_order :
  forall (self self' : t) (identifier : string) (new_layer : value)
         (changed : bool),
    _set_layer self identifier new_layer = Ok (changed, self') ->
    assoc_get identifier (_layers self') = Some new_layer
    /\ (forall other, other <> identifier ->
          assoc_get other (_layers self') = assoc_get other (_layers self))
    /\ map fst (_layers self')
       = match assoc_get identifier (_layers self) with
         | Some _ => map fst (_layers self)
         | None => map fst (_layers self) ++ [identifier]
         end.
Proof.
  intros self self' identifier new_layer changed. unfold _set_layer.
  destruct (validate_metadata new_layer); [|discriminate]. simpl.
  intros [= _ <-]. cbn [_layers]. split; [apply assoc_get_set_eq|]. split.
  - intros other N. now apply assoc_get_set_neq.
  - apply assoc_set_keys.
Qed.

Lemma set_layer_keeps_order_witness :
  assoc_get "over" (_layers two_layers) = Some over_layer
  /\ assoc_get "base" (_layers two_layers) = Some base_layer
  /\ map fst (_layers two_layers) = ["base"; "over"].
Proof.
  destruct (set_layer_keeps_order (mk [("base", base_layer)]) two_layers
              "over" over_layer true eq_refl) as (Stored & Others & Order).
  split; [exact Stored|]. split; [|exact Order].
  rewrite (Others "base"); [reflexivity|discriminate].
Defined.

Lemma contributions_app path l1 l2 :
  contributions path (l1 ++ l2)
  = contributions path l1 ++ contributions path l2.
Proof.
  induction l1 as [|x r IH]; [reflexivity|].
  simpl. destruct (value_at_key_path x path); simpl; now rewrite IH.
Qed.

(** Setting a layer under a new identifier and reading a path: if the
    new layer lacks the path, [get] answers as before; if it has a value
    there, [get] answers with that value merged on top of what the
    earlier layers gave. *)
Theorem get_after_set_layer :
  forall (self self' : t) (identifier : string) (new_layer : value)
         (changed : bool) (path : path_arg) (D : Type) (default : D)
         (use_default : bool),
    assoc_get identifier (_layers self) = None ->
    _set_layer self identifier new_layer = Ok (changed, self') ->
    get self' path default use_default
    = match value_at_key_path new_layer (path_segments path) with
      | Raise _ => get self path default use_default
      | Ok v =>
          Ok (inr (freeze_object
                     (match contributions (path_segments path)
                              (map snd (_layers self)) with
                      | [] => v
                      | first :: later =>
                          merge_dict (fold_left merge_dict later first) v
                      end)))
      end.
Proof.
  intros self self' identifier new_layer changed path D default use_default
         Fresh. unfold _set_layer.
  destruct (validate_metadata new_layer); [|discriminate]. simpl.
  intros [= _ <-]. rewrite !get_by_contributions. cbn [_layers].
  rewrite (assoc_set_fresh _ _ _ Fresh), map_app, contributions_app. simpl.
  destruct (value_at_key_path new_layer (path_segments path)) as [v|e].
  - destruct (contributions (path_segments path) (map snd (_layers self)))
      as [|first later]; simpl; [reflexivity|].
    now rewrite fold_left_app.
  - now rewrite app_nil_r.
Qed.

Lemma get_after_set_layer_witness :
  get two_layers (PathStr "a/y") VNull true = Ok (inr (FInt 9)).
Proof.
  exact (get_after_set_layer (mk [("base", base_layer)]) two_layers "over"
           over_layer true (PathStr "a/y") value VNull true eq_refl eq_refl).
Defined.

(** *** The composed view *)

Fixpoint merge_entries (acc upd : list (string * value))
  : list (string * value) :=
  match upd with
  | [] => acc
  | (k, v) :: r =>
      merge_entries
        (assoc_set k
           (match assoc_get k acc with
            | Some bv => merge_dict bv v
            | None => v
            end) acc) r
  end.

Lemma merge_dict_dict b u :
  merge_dict (VDict b) (VDict u) = VDict (merge_entries b u).
Proof.
  revert b. induction u as [|[k v] r IH]; intros b; [reflexivity|].
  simpl. exact (IH _).
Qed.

Lemma existsb_eqb_app_false k l1 l2 :
  existsb (String.eqb k) (l1 ++ l2) = false <->
  existsb (String.eqb k) l1 = false /\ existsb (String.eqb k) l2 = false.
Proof. rewrite existsb_app. apply orb_false_iff. Qed.

Lemma assoc_get_not_in {A : Type} k (m : list (string * A)) :
  existsb (String.eqb k) (map fst m) = false -> assoc_get k m = None.
Proof.
  induction m as [|[k' v'] r IH]; simpl; [reflexivity|].
  intros H. apply orb_false_iff in H as [H1 H2]. rewrite H1. auto.
Qed.

Lemma merge_entries_disjoint upd : forall acc,
  keys_distinct (map fst upd) = true ->
  (forall k, In k (map fst upd) ->
             existsb (String.eqb k) (map fst acc) = false) ->
  merge_entries acc upd = acc ++ upd.
Proof.
  induction upd as [|[k v] r IH]; intros acc Dk Dis; simpl.
  - now rewrite app_nil_r.
  - simpl in Dk. apply andb_true_iff in Dk as [Nk Dr].
    apply negb_true_iff in Nk.
    rewrite (assoc_get_not_in k acc (Dis k (or_introl eq_refl))).
    rewrite (assoc_set_fresh k v acc
               (assoc_get_not_in k acc (Dis k (or_introl eq_refl)))).
    rewrite IH; [now rewrite <- app_assoc|exact Dr|].
    intros k' Hk'. rewrite map_app. apply existsb_eqb_app_false. split.
    + apply Dis. now right.
    + simpl. rewrite orb_false_r.
      destruct (String.eqb k' k) eqn:E; [|reflexivity].
      apply String.eqb_eq in E. subst k'.
      apply existsb_eqb_false in Nk. contradiction.
Qed.

Lemma merge_dict_empty_base (v : value) :
  wf_value v = true -> merge_dict (VDict []) v = v.
Proof.
  destruct v as [| | | | |es]; try reflexivity.
  intros W. rewrite wf_value_dict in W. apply andb_true_iff in W as [Dk _].
  rewrite merge_dict_dict, merge_entries_disjoint; auto.
Qed.

(** On a stack with at least one layer, [get] of the empty path is the
    frozen [_as_dict]: both merge all layers in insertion order (the
    first layer being a well-formed value). *)
Theorem get_of_empty_path_is_as_dict :
  forall (self : t) (identifier : string) (first : value)
         (later : list (string * value)) (D : Type) (default : D)
         (use_default : bool),
    _layers self = (identifier, first) :: later ->
    wf_value first = true ->
    get self (PathSeq []) default use_default
    = Ok (inr (freeze_object (_as_dict self))).
Proof.
  intros self identifier first later D default use_default E W.
  rewrite get_by_contributions. unfold _as_dict. rewrite E. simpl.
  assert (forall l, contributions [] l = l) as All
    by (induction l as [|x r IH]; simpl; congruence).
  rewrite All, (merge_dict_empty_base first W). reflexivity.
Qed.

Lemma get_of_empty_path_is_as_dict_witness :
  get two_layers (PathSeq []) VNull true
  = Ok (inr (freeze_object (_as_dict two_layers))).
Proof.
  exact (get_of_empty_path_is_as_dict two_layers "base" base_layer
           [("over", over_layer)] value VNull true eq_refl eq_refl).
Defined.

End Metastack.

(* ===================================================================== *)
(** * blockwart/node.py *)
(* ===================================================================== *)

Module Node.

(** Modelled from the spec: the status record of the absent
    [blockwart/items/__init__.py], per section 6: the three booleans the
    aggregator reads. *)
Record ItemStatus : Type := mkStatus {
  correct : bool;
  fixable : bool;
  aborted : bool
}.

(** What a concrete item's [apply] returns. *)
Definition item_result : Type := (ItemStatus * ItemStatus)%type.

(** ** [ApplyResult] *)

Record ApplyResult : Type := mkApplyResult {
  node_name : string;
  n_correct : nat;
  n_fixed : nat;
  n_aborted : nat;
  n_unfixable : nat;
  n_failed : nat
}.

Inductive exn_result : Type :=
| RuntimeError (node : string) (before after : ItemStatus).

(** The body of the [for before, after in item_results] loop. *)
Definition ApplyResult_step (self : ApplyResult) (r : item_result)
  : result exn_result ApplyResult :=
  let '(before, after) := r in
  if correct before && correct after then
    Ok (mkApplyResult (node_name self) (n_correct self + 1) (n_fixed self)
          (n_aborted self) (n_unfixable self) (n_failed self))
  else if aborted after then
    Ok (mkApplyResult (node_name self) (n_correct self) (n_fixed self)
          (n_aborted self + 1) (n_unfixable self) (n_failed self))
  else if negb (fixable before) || negb (fixable after) then
    Ok (mkApplyResult (node_name self) (n_correct self) (n_fixed self)
          (n_aborted self) (n_unfixable self + 1) (n_failed self))
  else if negb (correct before) && correct after then
    Ok (mkApplyResult (node_name self) (n_correct self) (n_fixed self + 1)
          (n_aborted self) (n_unfixable self) (n_failed self))
  else if negb (correct before) && negb (correct after) then
    Ok (mkApplyResult (node_name self) (n_correct self) (n_fixed self)
          (n_aborted self) (n_unfixable self) (n_failed self + 1))
  else
    Raise (RuntimeError (node_name self) before after).

Fixpoint ApplyResult_loop (self : ApplyResult) (item_results : list item_result)
  : result exn_result ApplyResult :=
  match item_results with
  | [] => Ok self
  | r :: rest =>
      self' <- ApplyResult_step self r ;;
      ApplyResult_loop self' rest
  end.

(** [ApplyResult.__init__] *)
Definition ApplyResult_init (node : string) (item_results : list item_result)
  : result exn_result ApplyResult :=
  ApplyResult_loop (mkApplyResult node 0 0 0 0 0) item_results.

(** *** The aggregator's clauses as the specification lists them *)

Inductive counter : Type := Correct | Aborted | Unfixable | Fixed | Failed.

Definition clauses : list ((ItemStatus -> ItemStatus -> bool) * counter) :=
  [ (fun before after => correct before && correct after, Correct);
    (fun before after => aborted after, Aborted);
    (fun before after => negb (fixable before) || negb (fixable after),
     Unfixable);
    (fun before after => negb (correct before) && correct after, Fixed);
    (fun before after => negb (correct before) && negb (correct after),
     Failed) ].

Definition first_match (before after : ItemStatus) : option counter :=
  option_map snd (find (fun c => fst c before after) clauses).

Definition bump (c : counter) (r : ApplyResult) : ApplyResult :=
  match c with
  | Correct => mkApplyResult (node_name r) (S (n_correct r)) (n_fixed r)
                 (n_aborted r) (n_unfixable r) (n_failed r)
  | Aborted => mkApplyResult (node_name r) (n_correct r) (n_fixed r)
                 (S (n_aborted r)) (n_unfixable r) (n_failed r)
  | Unfixable => mkApplyResult (node_name r) (n_correct r) (n_fixed r)
                   (n_aborted r) (S (n_unfixable r)) (n_failed r)
  | Fixed => mkApplyResult (node_name r) (n_correct r) (S (n_fixed r))
               (n_aborted r) (n_unfixable r) (n_failed r)
  | Failed => mkApplyResult (node_name r) (n_correct r) (n_fixed r)
                (n_aborted r) (n_unfixable r) (S (n_failed r))
  end.


Lemma ApplyResult_step_first_match self before after :
  ApplyResult_step self (before, after)
  = match first_match before after with
    | Some c => Ok (bump c self)
    | None => Raise (RuntimeError (node_name self) before after)
    end.
Proof.
  unfold ApplyResult_step, first_match, clauses. simpl.
  destruct (correct before), (correct after), (aborted after),
    (fixable before), (fixable after); simpl;
    rewrite ?Nat.add_1_r; reflexivity.
Qed.

Lemma first_match_none before after :
  first_match before after = None
  <-> (correct before = true /\ correct after = false
       /\ aborted after = false
       /\ fixable before = true /\ fixable after = true).
Proof.
  unfold first_match, clauses. simpl.
  destruct (correct before), (correct after), (aborted after),
    (fixable before), (fixable after); simpl; split;
    try discriminate; try reflexivity; try tauto;
    intros (A & B & C & D & E); discriminate.
Qed.





(** Three pairs: already correct, fixed, failed. *)
Definition status_ok : ItemStatus := mkStatus true true false.
Definition status_bad : ItemStatus := mkStatus false true false.


(** ** Items and the dependency graph *)

(** A concrete item as a bundle hands it over: its id, its two dependency
    lists and the pair of status records its [apply] will return. *)
Record Item : Type := mkItem {
  id : string;
  DEPENDS_STATIC : list string;
  depends : list string;
  apply_result : item_result
}.

(** An entry of the scheduler's lists, with its mutable [_deps]: a
    concrete item or a [DummyItem] standing for all items of one type.
    Every entry is an object of its own (the input list does not name
    one item object twice). *)
Inductive entry : Type :=
| Concrete (item : Item) (_deps : list string)
| DummyItem (item_type : string) (_deps : list string).

Definition entry_id (e : entry) : string :=
  match e with
  | Concrete item _ => id item
  | DummyItem item_type _ => item_type ++ ":"
  end.

Definition entry_deps (e : entry) : list string :=
  match e with
  | Concrete _ deps => deps
  | DummyItem _ deps => deps
  end.

Definition with_deps (e : entry) (deps : list string) : entry :=
  match e with
  | Concrete item _ => Concrete item deps
  | DummyItem item_type _ => DummyItem item_type deps
  end.

(** [item.apply(interactive=...)]: a pair of status records for a concrete
    item, [None] for a [DummyItem]. *)
Definition entry_apply (e : entry) (interactive : bool) : option item_result :=
  match e with
  | Concrete item _ => Some (apply_result item)
  | DummyItem _ _ => None
  end.

(** [x.split(":")[0]] *)
Definition type_of (item_id : string) : string :=
  hd EmptyString (split_on ":" item_id).

(** [if item_type not in dummy_items: dummy_items[item_type] = DummyItem(..)];
    the dict maps a type to the [_deps] of its DummyItem. *)
Definition ensure_dummy (item_type : string)
    (dummy_items : list (string * list string)) : list (string * list string) :=
  match assoc_get item_type dummy_items with
  | Some _ => dummy_items
  | None => assoc_set item_type [] dummy_items
  end.

(** The body of the outer [for item in items] loop. *)
Definition inject_step (dummy_items : list (string * list string)) (item : Item)
  : list (string * list string) :=
  let _deps := DEPENDS_STATIC item ++ depends item in
  let item_type := type_of (id item) in
  let dummy_items := ensure_dummy item_type dummy_items in
  let dummy_items :=
    assoc_set item_type
      (match assoc_get item_type dummy_items with
       | Some deps => deps ++ [id item]
       | None => [id item]
       end) dummy_items in
  fold_left (fun d dep => ensure_dummy (type_of dep) d) _deps dummy_items.

(** [inject_dummy_items]: the dummy items (in the order their types were
    first met) followed by the items, each with [_deps] set to the
    concatenation of its static and its user-defined dependencies. *)
Definition inject_dummy_items (items : list Item) : list entry :=
  let dummy_items := fold_left inject_step items [] in
  map (fun d => DummyItem (fst d) (snd d)) dummy_items
  ++ map (fun item => Concrete item (DEPENDS_STATIC item ++ depends item)) items.

(** [list.remove(x)] inside [try ... except ValueError: pass]: drop the
    first occurrence, if any. *)
Fixpoint remove_first (x : string) (l : list string) : list string :=
  match l with
  | [] => []
  | y :: r => if String.eqb x y then r else y :: remove_first x r
  end.

Definition remove_dep_from_items (items : list entry) (dep : string)
  : list entry :=
  map (fun item => with_deps item (remove_first dep (entry_deps item))) items.

Definition no_deps (e : entry) : bool :=
  match entry_deps e with
  | [] => true
  | _ => false
  end.

(** [split_items_without_deps]: (items that still have deps, the others),
    both in list order. *)
Definition split_items_without_deps (items : list entry)
  : list entry * list entry :=
  (filter (fun e => negb (no_deps e)) items, filter no_deps items).

(** ** The worker pool *)

(** A task a worker holds: the id it was started under and what the
    item's [apply] returns. *)
Record task : Type := mkTask {
  task_id : string;
  task_result : option item_result
}.

(** Modelled from the spec: [WorkerPool] of the absent
    [blockwart/concurrency.py], per section 4.E: a fixed number of
    workers, each idle, busy with a task, or reapable (task finished,
    result not yet consumed). *)
Record WorkerPool : Type := mkPool {
  workers : nat;
  busy : list task;
  reapable : list task
}.

Definition busy_count (p : WorkerPool) : nat := List.length (busy p).
Definition reapable_count (p : WorkerPool) : nat := List.length (reapable p).
Definition idle_count (p : WorkerPool) : nat :=
  workers p - busy_count p - reapable_count p.

(** [get_idle_worker(block=False)] followed by [worker.start_task]. *)
Definition start_task (p : WorkerPool) (t : task) : WorkerPool :=
  mkPool (workers p) (busy p ++ [t]) (reapable p).

(** All ways to take one element out of a list: which busy task finishes
    next, and which reapable worker [get_reapable_worker] hands out, are
    not determined. *)
Fixpoint picks {A : Type} (l : list A) : list (A * list A) :=
  match l with
  | [] => []
  | x :: r => (x, r) :: map (fun yr => (fst yr, x :: snd yr)) (picks r)
  end.

(** ** [apply_items] as a transition system *)

Inductive exn : Type :=
| ItemDependencyError (items : list entry).

(** Where the generator stands. *)
Inductive control : Type :=
| LoopTest            (* at the head of the outer [while] *)
| Reaping             (* at the head of the [while workers.reapable_count > 0] *)
| Waiting             (* inside [workers.wait()] *)
| AfterLoop           (* past the outer [while] *)
| Returned
| Raised (e : exn).

(** What has happened so far, oldest first. *)
Inductive event : Type :=
| Started (item : entry)
| Reaped (dep : string).

Record state : Type := mkState {
  pc : control;
  items_with_deps : list entry;
  items_without_deps : list entry;
  pool : WorkerPool;
  interactive : bool;
  yielded : list item_result;
  trace : list event
}.

(** The inner [while items_without_deps] loop, on the reversed list
    ([pop()] takes the last element): start tasks until the list is empty
    or no worker is idle. *)
Fixpoint dispatch (ready_rev : list entry) (p : WorkerPool)
    (interactive : bool) (tr : list event)
  : list entry * WorkerPool * list event :=
  match ready_rev with
  | [] => ([], p, tr)
  | item :: rest =>
      if Nat.eqb (idle_count p) 0 then (ready_rev, p, tr)
      else dispatch rest
             (start_task p (mkTask (entry_id item)
                              (entry_apply item interactive)))
             interactive (tr ++ [Started item])
  end.

(** The outer loop's condition. *)
Definition loop_condition (s : state) : bool :=
  negb (Nat.eqb (List.length (items_without_deps s)) 0)
  || Nat.ltb 0 (busy_count (pool s))
  || Nat.ltb 0 (reapable_count (pool s)).

(** From the loop head: leave the loop, or run the dispatch loop. *)
Definition enter_loop (s : state) : state :=
  if loop_condition s then
    let '(ready_rev, p, tr) :=
      dispatch (rev (items_without_deps s)) (pool s) (interactive s) (trace s)
    in mkState Reaping (items_with_deps s) (rev ready_rev) p (interactive s)
         (yielded s) tr
  else
    mkState AfterLoop (items_with_deps s) (items_without_deps s) (pool s)
      (interactive s) (yielded s) (trace s).

(** One turn of the reap loop on the reapable worker [t]; [others] are
    the workers that stay reapable. *)
Definition reap_one (s : state) (t : task) (others : list task) : state :=
  let dep := task_id t in
  let result := task_result t in
  let '(w, wo) :=
    split_items_without_deps
      (remove_dep_from_items (items_with_deps s) dep) in
  mkState Reaping w wo
    (mkPool (workers (pool s)) (busy (pool s)) others)
    (interactive s)
    (yielded s ++ match result with
                  | Some r => [r]
                  | None => []
                  end)
    (trace s ++ [Reaped dep]).

(** The reap loop is over: wait if workers are busy and nothing else can
    be done, then go round the outer loop. *)
Definition after_reaping (s : state) : state :=
  if Nat.ltb 0 (busy_count (pool s))
     && Nat.eqb (List.length (items_without_deps s)) 0
     && Nat.eqb (reapable_count (pool s)) 0
  then mkState Waiting (items_with_deps s) (items_without_deps s) (pool s)
         (interactive s) (yielded s) (trace s)
  else mkState LoopTest (items_with_deps s) (items_without_deps s) (pool s)
         (interactive s) (yielded s) (trace s).

(** The code after the loop. *)
Definition leave (s : state) : state :=
  match items_with_deps s with
  | [] => mkState Returned (items_with_deps s) (items_without_deps s) (pool s)
            (interactive s) (yielded s) (trace s)
  | _ => mkState (Raised (ItemDependencyError (items_with_deps s)))
           (items_with_deps s) (items_without_deps s) (pool s)
           (interactive s) (yielded s) (trace s)
  end.

(** A busy worker finishes its task. *)
Definition finish_task (s : state) (t : task) (others : list task) : state :=
  mkState (pc s) (items_with_deps s) (items_without_deps s)
    (mkPool (workers (pool s)) others (reapable (pool s) ++ [t]))
    (interactive s) (yielded s) (trace s).

Definition worker_steps (s : state) : list state :=
  map (fun tr => finish_task s (fst tr) (snd tr)) (picks (busy (pool s))).

(** The moves of the generator itself. *)
Definition scheduler_steps (s : state) : list state :=
  match pc s with
  | LoopTest => [enter_loop s]
  | Reaping =>
      match reapable (pool s) with
      | [] => [after_reaping s]
      | _ => map (fun tr => reap_one s (fst tr) (snd tr))
               (picks (reapable (pool s)))
      end
  | Waiting =>
      match reapable (pool s) with
      | [] => []
      | _ => [mkState LoopTest (items_with_deps s) (items_without_deps s)
                (pool s) (interactive s) (yielded s) (trace s)]
      end
  | AfterLoop => [leave s]
  | Returned => []
  | Raised _ => []
  end.

Definition final (s : state) : bool :=
  match pc s with
  | Returned => true
  | Raised _ => true
  | _ => false
  end.

Definition next_states (s : state) : list state :=
  scheduler_steps s ++ (if final s then [] else worker_steps s).

Definition step (s s' : state) : Prop := In s' (next_states s).

Inductive steps (s : state) : state -> Prop :=
| steps_refl : steps s s
| steps_step s1 s2 : steps s s1 -> step s1 s2 -> steps s s2.

(** [apply_items(items, workers, interactive)] up to the first test of
    the outer loop. *)
Definition apply_items (items : list Item) (workers : nat)
    (interactive : bool) : state :=
  let items := inject_dummy_items items in
  let workers := mkPool workers [] [] in
  let '(items_with_deps, items_without_deps) :=
    split_items_without_deps items in
  mkState LoopTest items_with_deps items_without_deps workers interactive
    [] [].

(** What [apply_items] may be handed as its [items]: a list, or a
    generator such as the property [Node.items] that will yield the given
    items. *)
Inductive iterable : Type :=
| FromList (items : list Item)
| FromGenerator (items : list Item).

Inductive apply_exn : Type :=
| TypeError (msg : string)
| SchedulerError (e : exn)
| AggregatorError (e : exn_result).

(** [inject_dummy_items] on either kind of iterable: the [for] loop runs
    over both, but the closing [list(dummy_items.values()) + items] only
    concatenates with a list; with a generator on the right the [+]
    raises [TypeError]. *)
Definition inject_dummy_items_of (items : iterable)
  : result apply_exn (list entry) :=
  match items with
  | FromList l => Ok (inject_dummy_items l)
  | FromGenerator _ =>
      Raise (TypeError "can only concatenate list (not generator) to list")
  end.

(** [apply_items] after its first line: the pool is built, the graph is
    split, and the loop is about to be tested. *)
Definition start_scheduler (graph : list entry) (workers : nat)
    (interactive : bool) : state :=
  let workers := mkPool workers [] [] in
  let '(items_with_deps, items_without_deps) :=
    split_items_without_deps graph in
  mkState LoopTest items_with_deps items_without_deps workers interactive
    [] [].

(** [apply_items] on an iterable: the graph is built first, so a failure
    there comes before the worker pool exists. *)
Definition apply_items_of (items : iterable) (workers : nat)
    (interactive : bool) : result apply_exn state :=
  graph <- inject_dummy_items_of items ;;
  Ok (start_scheduler graph workers interactive).

(** What [ApplyResult(self, item_results)] makes of a run that has come
    to the state [s]: the aggregator's error as soon as the results
    yielded so far hold a pair it cannot classify, otherwise the
    scheduler's error or the counters once the run is over. *)
Definition aggregated (node : string) (s : state)
    (outcome : result apply_exn ApplyResult) : Prop :=
  match ApplyResult_init node (yielded s) with
  | Raise e => outcome = Raise (AggregatorError e)
  | Ok r =>
      match pc s with
      | Returned => outcome = Ok r
      | Raised e => outcome = Raise (SchedulerError e)
      | _ => False
      end
  end.

(** [Node.apply], as a relation between the call and its outcomes:
    [self.items] is a generator, it is what [apply_items] receives, and
    the body of [apply_items] runs when [ApplyResult] asks for the first
    result. *)
Definition Node_apply (node : string) (self_items : list Item)
    (interactive : bool) (workers : nat)
    (outcome : result apply_exn ApplyResult) : Prop :=
  let worker_count := if interactive then 1 else workers in
  match apply_items_of (FromGenerator self_items) worker_count interactive with
  | Raise e => outcome = Raise e
  | Ok s0 => exists s, steps s0 s /\ aggregated node s outcome
  end.

(** *** Basic facts about the transition system *)

Lemma steps_trans s1 s2 s3 : steps s1 s2 -> steps s2 s3 -> steps s1 s3.
Proof.
  intros H12 H23. induction H23 as [|s s' _ IH St]; [exact H12|].
  exact (steps_step _ _ _ IH St).
Qed.

Lemma steps_one s s' : step s s' -> steps s s'.
Proof. intros H. exact (steps_step _ _ _ (steps_refl s) H). Qed.

Lemma picks_spec {A : Type} (l : list A) x others :
  In (x, others) (picks l)
  <-> exists l1 l2, l = l1 ++ x :: l2 /\ others = l1 ++ l2.
Proof.
  revert others. induction l as [|y r IH]; intros others; simpl.
  - split; [contradiction|]. intros (l1 & l2 & E & _). now destruct l1.
  - split.
    + intros [H|H].
      * injection H as -> ->. exists [], others. auto.
      * apply in_map_iff in H as ([z zs] & E & Hin). simpl in E.
        injection E as -> <-. apply IH in Hin as (l1 & l2 & -> & ->).
        exists (y :: l1), l2. auto.
    + intros (l1 & l2 & E & ->). destruct l1 as [|z l1]; simpl in E.
      * injection E as -> ->. now left.
      * injection E as -> ->. right. apply in_map_iff.
        exists (x, l1 ++ l2). split; [reflexivity|].
        apply IH. exists l1, l2. auto.
Qed.

Lemma picks_length {A : Type} (l : list A) x others :
  In (x, others) (picks l) -> List.length l = S (List.length others).
Proof.
  intros H. apply picks_spec in H as (l1 & l2 & -> & ->).
  rewrite !length_app. simpl. lia.
Qed.

Lemma picks_in {A : Type} (l : list A) x others :
  In (x, others) (picks l) ->
  In x l /\ forall y, In y others -> In y l.
Proof.
  intros H. apply picks_spec in H as (l1 & l2 & -> & ->). split.
  - apply in_or_app. right. now left.
  - intros y Hy. apply in_app_or in Hy as [Hy|Hy]; apply in_or_app;
      [now left|right; now right].
Qed.

(** The moves of the system, by kind. *)
Inductive move (s : state) : state -> Prop :=
| move_enter : pc s = LoopTest -> move s (enter_loop s)
| move_reap t others :
    pc s = Reaping -> In (t, others) (picks (reapable (pool s))) ->
    move s (reap_one s t others)
| move_after_reaping :
    pc s = Reaping -> reapable (pool s) = [] -> move s (after_reaping s)
| move_wake :
    pc s = Waiting -> reapable (pool s) <> [] ->
    move s (mkState LoopTest (items_with_deps s) (items_without_deps s)
              (pool s) (interactive s) (yielded s) (trace s))
| move_leave : pc s = AfterLoop -> move s (leave s)
| move_finish t others :
    final s = false -> In (t, others) (picks (busy (pool s))) ->
    move s (finish_task s t others).

Lemma step_move s s' : step s s' <-> move s s'.
Proof.
  unfold step, next_states, scheduler_steps, worker_steps. split.
  - intros H. apply in_app_or in H as [H|H].
    + destruct (pc s) eqn:P; simpl in H.
      * destruct H as [<-|[]]. now constructor.
      * destruct (reapable (pool s)) as [|t0 r0] eqn:R.
        -- destruct H as [<-|[]]. now constructor.
        -- apply in_map_iff in H as ([t others] & <- & Hin).
           rewrite <- R in Hin. now constructor.
      * destruct (reapable (pool s)) as [|t0 r0] eqn:R; [contradiction|].
        destruct H as [<-|[]]. constructor; [exact P|]. now rewrite R.
      * destruct H as [<-|[]]. now constructor.
      * contradiction.
      * contradiction.
    + destruct (final s) eqn:F; [contradiction|].
      apply in_map_iff in H as ([t others] & <- & Hin). now constructor.
  - intros H. apply in_or_app. destruct H as [P|t others P Hin|P R|P R|P|t others F Hin].
    + left. rewrite P. now left.
    + left. rewrite P.
      destruct (reapable (pool s)) as [|t0 r0] eqn:R; [contradiction|].
      apply in_map_iff. exists (t, others). auto.
    + left. rewrite P, R. now left.
    + left. rewrite P.
      destruct (reapable (pool s)) as [|t0 r0] eqn:R'; [congruence|]. now left.
    + left. rewrite P. now left.
    + right. rewrite F. apply in_map_iff. exists (t, others). auto.
Qed.

(** An invariant of the moves holds in every state a run reaches. *)
Lemma steps_invariant (I : state -> Prop) :
  (forall s s', I s -> move s s' -> I s') ->
  forall s s', I s -> steps s s' -> I s'.
Proof.
  intros Pres s s' H0 H. induction H as [|s1 s2 _ IH St]; [exact H0|].
  apply step_move in St. exact (Pres _ _ IH St).
Qed.

(** *** The dispatch loop *)

Lemma dispatch_spec ready_rev : forall p inter tr r p' tr',
  dispatch ready_rev p inter tr = (r, p', tr') ->
  exists started,
    ready_rev = started ++ r
    /\ workers p' = workers p
    /\ busy p' = busy p ++ map (fun e => mkTask (entry_id e)
                                           (entry_apply e inter)) started
    /\ reapable p' = reapable p
    /\ tr' = tr ++ map Started started
    /\ List.length started <= idle_count p
    /\ (r = [] \/ idle_count p' = 0).
Proof.
  induction ready_rev as [|item rest IH]; intros p inter tr r p' tr'; simpl.
  - intros [= <- <- <-]. exists []. simpl. rewrite !app_nil_r.
    repeat split; auto. lia.
  - destruct (Nat.eqb (idle_count p) 0) eqn:E.
    + intros [= <- <- <-]. exists []. simpl. rewrite !app_nil_r.
      apply Nat.eqb_eq in E. repeat split; auto. lia.
    + intros H. apply IH in H as (started & -> & W & B & R & T & L & D).
      apply Nat.eqb_neq in E.
      exists (item :: started). simpl in *.
      rewrite <- !app_assoc in *. simpl in *.
      repeat split; auto.
      unfold idle_count, busy_count, reapable_count, start_task in *.
      simpl in *. rewrite length_app in L. simpl in L. lia.
Qed.

Lemma apply_items_pool_invariant items requested interactive s :
  steps (apply_items items requested interactive) s ->
  workers (pool s) = requested
  /\ busy_count (pool s) + reapable_count (pool s) <= workers (pool s).
Proof.
  intros H.
  apply (steps_invariant
           (fun s => workers (pool s) = requested
                     /\ busy_count (pool s) + reapable_count (pool s)
                        <= workers (pool s))) in H; [exact H| |].
  - clear. intros s s' [W B] M.
    unfold busy_count, reapable_count in *.
    destruct M as [P|t others P Hin|P R|P R|P|t others F Hin].
    + unfold enter_loop. destruct (loop_condition s); [|simpl; auto].
      destruct (dispatch _ _ _ _) as [[r p'] tr'] eqn:D.
      apply dispatch_spec in D as (started & _ & W' & B' & R' & _ & L & _).
      simpl. rewrite W', B', R', length_app, length_map.
      unfold idle_count, busy_count, reapable_count in L. split; [auto|lia].
    + unfold reap_one. destruct (split_items_without_deps _) as [w wo].
      simpl. apply picks_length in Hin. split; [auto|lia].
    + unfold after_reaping. destruct (_ && _); simpl; auto.
    + simpl. auto.
    + unfold leave. destruct (items_with_deps s); simpl; auto.
    + simpl. apply picks_length in Hin. rewrite length_app. simpl.
      split; [auto|lia].
  - unfold apply_items.
    destruct (split_items_without_deps _) as [w wo].
    unfold busy_count, reapable_count. simpl.
    split; [reflexivity|lia].
Qed.

(** C9 (failing input): [Node.apply] computes the worker count the
    claim describes, one when interactive and the requested count
    otherwise, but hands [apply_items] the generator [self.items]; the
    graph builder's list concatenation raises [TypeError] on it before
    any worker pool is built.  So every call of [Node.apply], whatever
    the node's items, the flag and the requested count, has that
    [TypeError] as its only outcome, and no scheduler runs with any
    worker count.  Handed the same items as a list, [apply_items] does
    start with a pool of the count it is given. *)
Theorem Node_apply_raises_TypeError :
  (forall (node : string) (self_items : list Item) (interactive : bool)
          (requested : nat) (outcome : result apply_exn ApplyResult),
      Node_apply node self_items interactive requested outcome
      <-> outcome
          = Raise (TypeError
                     "can only concatenate list (not generator) to list"))
  /\ (forall (items : list Item) (worker_count : nat) (interactive : bool),
        apply_items_of (FromList items) worker_count interactive
        = Ok (apply_items items worker_count interactive)
        /\ workers (pool (apply_items items worker_count interactive))
           = worker_count).
Proof.
  split.
  - intros node self_items interactive requested outcome.
    unfold Node_apply. simpl. reflexivity.
  - intros items worker_count interactive. split; [reflexivity|].
    exact (proj1 (apply_items_pool_invariant items worker_count interactive
                    _ (steps_refl _))).
Qed.

Lemma Node_apply_raises_TypeError_witness :
  Node_apply "node1" [] true 8
    (Raise (TypeError "can only concatenate list (not generator) to list")).
Proof.
  apply (proj1 Node_apply_raises_TypeError). reflexivity.
Defined.


(** *** Leaving the loop *)

Lemma enter_loop_exit s :
  items_without_deps s = [] -> busy (pool s) = [] -> reapable (pool s) = [] ->
  enter_loop s
  = mkState AfterLoop (items_with_deps s) [] (pool s) (interactive s)
      (yielded s) (trace s).
Proof.
  intros R B Q. unfold enter_loop, loop_condition, busy_count, reapable_count.
  now rewrite R, B, Q.
Qed.

Lemma no_picks_nil {A : Type} (x : A) others : ~ In (x, others) (picks []).
Proof. simpl. auto. Qed.

(** C5: when the main loop is left (nothing ready, no worker busy or
    reapable) while items are still pending, the run ends, and it can end
    in one way only: by raising the dependency error that lists exactly
    the pending items, with nothing more yielded. *)
Theorem loop_exit_with_pending_raises :
  forall s : state,
    pc s = LoopTest ->
    items_without_deps s = [] ->
    busy (pool s) = [] ->
    reapable (pool s) = [] ->
    items_with_deps s <> [] ->
    (exists s', steps s s' /\ final s' = true)
    /\ (forall s', steps s s' -> final s' = true ->
          pc s' = Raised (ItemDependencyError (items_with_deps s))
          /\ yielded s' = yielded s).
Proof.
  intros s P R B Q N.
  set (s1 := mkState AfterLoop (items_with_deps s) [] (pool s) (interactive s)
               (yielded s) (trace s)).
  set (s2 := mkState (Raised (ItemDependencyError (items_with_deps s)))
               (items_with_deps s) [] (pool s) (interactive s)
               (yielded s) (trace s)).
  assert (leave s1 = s2) as L.
  { unfold leave, s1, s2. simpl.
    destruct (items_with_deps s); [contradiction|reflexivity]. }
  assert (step s s1) as S1.
  { apply step_move. unfold s1. rewrite <- (enter_loop_exit s R B Q).
    now constructor. }
  assert (step s1 s2) as S2.
  { apply step_move. rewrite <- L. now constructor. }
  split.
  - exists s2. split; [|reflexivity].
    exact (steps_step _ _ _ (steps_one _ _ S1) S2).
  - assert (forall s', steps s s' -> s' = s \/ s' = s1 \/ s' = s2) as Reach.
    { intros s' H. induction H as [|sa sb _ IH St]; [now left|].
      apply step_move in St.
      destruct IH as [->|[->| ->]].
      - destruct St as [Pa|t others Pa Hin|Pa Ra|Pa Ra|Pa|t others F Hin];
          try congruence.
        + right. left. apply enter_loop_exit; assumption.
        + rewrite B in Hin. contradiction.
      - destruct St as [Pa|t others Pa Hin|Pa Ra|Pa Ra|Pa|t others F Hin];
          try discriminate.
        + right. right. exact L.
        + simpl in Hin. rewrite B in Hin. contradiction.
      - destruct St as [Pa|t others Pa Hin|Pa Ra|Pa Ra|Pa|t others F Hin];
          discriminate. }
    intros s' H F. destruct (Reach s' H) as [->|[->| ->]].
    + unfold final in F. rewrite P in F. discriminate.
    + discriminate.
    + split; reflexivity.
Qed.

(** A two-item cycle: x waits for y and y for x. *)
Definition item_x : Item := mkItem "svc:x" [] ["svc:y"] (status_bad, status_ok).
Definition item_y : Item := mkItem "svc:y" [] ["svc:x"] (status_bad, status_ok).

Lemma loop_exit_with_pending_raises_witness :
  exists s',
    steps (apply_items [item_x; item_y] 1 false) s'
    /\ pc s' = Raised (ItemDependencyError
                         [DummyItem "svc" ["svc:x"; "svc:y"];
                          Concrete item_x ["svc:y"];
                          Concrete item_y ["svc:x"]])
    /\ yielded s' = [].
Proof.
  destruct (loop_exit_with_pending_raises
              (apply_items [item_x; item_y] 1 false))
    as [(s' & Run & Fin) Only];
    try reflexivity; try discriminate.
  exists s'. split; [exact Run|]. exact (Only s' Run Fin).
Defined.

(** *** Exploring the runs of a concrete input *)

Definition state_eq_dec (a b : state) : {a = b} + {a <> b}.
Proof. repeat decide equality. Defined.

Definition mem (s : state) (l : list state) : bool :=
  if in_dec state_eq_dec s l then true else false.

(** Every move from a state of [l] stays in [l]. *)
Definition closed (l : list state) : bool :=
  forallb (fun s => forallb (fun s' => mem s' l) (next_states s)) l.

Fixpoint explore (fuel : nat) (seen frontier : list state) : list state :=
  match fuel with
  | O => seen
  | S fuel' =>
      let fresh :=
        nodup state_eq_dec
          (filter (fun s => negb (mem s seen))
             (flat_map next_states frontier)) in
      match fresh with
      | [] => seen
      | _ => explore fuel' (seen ++ fresh) fresh
      end
  end.

Definition reachable_states (s0 : state) : list state :=
  explore 64 [s0] [s0].

Lemma closed_reach (l : list state) (s0 : state) :
  closed l = true -> In s0 l -> forall s, steps s0 s -> In s l.
Proof.
  intros C H0 s H. induction H as [|s1 s2 _ IH St]; [exact H0|].
  unfold closed in C. rewrite forallb_forall in C.
  specialize (C s1 IH). rewrite forallb_forall in C.
  specialize (C s2 St). unfold mem in C.
  destruct (in_dec state_eq_dec s2 l); [assumption|discriminate].
Qed.

Lemma reach_steps (l : list state) (s0 : state) :
  (forall s, In s l -> steps s0 s) ->
  forall s, In s (flat_map next_states l) -> steps s0 s.
Proof.
  intros H s Hs. apply in_flat_map in Hs as (s1 & H1 & St).
  exact (steps_step _ _ _ (H s1 H1) St).
Qed.

Lemma explore_sound (s0 : state) (fuel : nat) : forall seen frontier,
  (forall s, In s seen -> steps s0 s) ->
  (forall s, In s frontier -> steps s0 s) ->
  forall s, In s (explore fuel seen frontier) -> steps s0 s.
Proof.
  induction fuel as [|fuel IH]; intros seen frontier Hs Hf s; simpl; [auto|].
  set (fresh := nodup state_eq_dec _).
  assert (forall x, In x fresh -> steps s0 x) as Hfresh.
  { intros x Hx. unfold fresh in Hx. apply nodup_In in Hx.
    apply filter_In in Hx as [Hx _]. exact (reach_steps _ _ Hf x Hx). }
  destruct fresh as [|f fr] eqn:E; [auto|].
  apply IH; [|exact Hfresh].
  intros x Hx. apply in_app_or in Hx as [Hx|Hx]; auto.
Qed.

Lemma reachable_states_sound (s0 s : state) :
  In s (reachable_states s0) -> steps s0 s.
Proof.
  apply explore_sound; intros x [<-|[]]; apply steps_refl.
Qed.

(** The runs of a concrete input: every state a run reaches is in the
    explored list, and every final state in the list of its final ones. *)
Lemma final_states_of (s0 : state) :
  closed (reachable_states s0) = true ->
  forall s, steps s0 s -> final s = true ->
            In s (filter final (reachable_states s0)).
Proof.
  intros C s H F. apply filter_In. split; [|exact F].
  apply (closed_reach _ s0 C); [|exact H].
  unfold reachable_states. 
  assert (forall fuel seen frontier,
             In s0 seen -> In s0 (explore fuel seen frontier)) as Keep.
  { induction fuel as [|fuel IH]; intros seen frontier Hs; simpl; [exact Hs|].
    destruct (nodup _ _); [exact Hs|].
    apply IH. apply in_or_app. now left. }
  apply Keep. now left.
Qed.

(** *** Two independent items on one worker *)

Definition file_a : Item := mkItem "file:a" [] [] (status_ok, status_ok).
Definition file_b : Item := mkItem "file:b" [] [] (status_bad, status_ok).

(** C1 (failing input): for the two items file:a and file:b, neither of
    which depends on anything, and one worker, every run of the scheduler
    ends the same way: file:b is started and reaped, the reap replaces
    the list of ready items and so drops file:a, which is never started;
    one result is yielded for two concrete items, and the run raises the
    dependency error for the type-group item still waiting for file:a. *)
Theorem ready_items_dropped_on_reap :
  (exists s, steps (apply_items [file_a; file_b] 1 false) s /\ final s = true)
  /\ (forall s,
        steps (apply_items [file_a; file_b] 1 false) s -> final s = true ->
        yielded s = [apply_result file_b]
        /\ pc s = Raised (ItemDependencyError [DummyItem "file" ["file:a"]])
        /\ trace s = [Started (Concrete file_b []); Reaped "file:b"]).
Proof.
  assert (forall s, In s (filter final
                            (reachable_states
                               (apply_items [file_a; file_b] 1 false))) ->
                    yielded s = [apply_result file_b]
                    /\ pc s = Raised (ItemDependencyError
                                        [DummyItem "file" ["file:a"]])
                    /\ trace s = [Started (Concrete file_b []);
                                  Reaped "file:b"]) as Fin.
  { intros s H. vm_compute in H. destruct H as [<-|[]].
    repeat split; reflexivity. }
  split.
  - destruct (filter final
                (reachable_states (apply_items [file_a; file_b] 1 false)))
      as [|sf rest] eqn:E; [vm_compute in E; discriminate E|].
    assert (In sf (filter final
                     (reachable_states
                        (apply_items [file_a; file_b] 1 false)))) as Hin
      by (rewrite E; now left).
    apply filter_In in Hin as [Hin F].
    exists sf. split; [|exact F]. now apply reachable_states_sound.
  - intros s H F. apply Fin. apply final_states_of; auto.
Qed.

Lemma ready_items_dropped_on_reap_witness :
  exists s,
    steps (apply_items [file_a; file_b] 1 false) s
    /\ yielded s = [apply_result file_b]
    /\ pc s = Raised (ItemDependencyError [DummyItem "file" ["file:a"]]).
Proof.
  destruct ready_items_dropped_on_reap as [(s & Run & Fin) Only].
  exists s. split; [exact Run|].
  destruct (Only s Run Fin) as (Y & P & _). split; assumption.
Defined.

(** *** A dependency named twice *)

(** file:b names file:a both as a static and as a user-defined
    dependency. *)
Definition file_b_twice : Item :=
  mkItem "file:b" ["file:a"] ["file:a"] (status_bad, status_ok).

Lemma inject_dummy_items_deps items item :
  In item items ->
  In (Concrete item (DEPENDS_STATIC item ++ depends item))
     (inject_dummy_items items).
Proof.
  intros H. unfold inject_dummy_items. apply in_or_app. right.
  apply in_map_iff. exists item. auto.
Qed.

(** C6 (failing input): the graph builder sets an item's working
    dependencies to the concatenation of its static and user-defined
    lists, so an id named in both is there twice; reaping the item of
    that id removes one occurrence only.  For file:a and a file:b that
    names file:a twice, file:b still waits for file:a after file:a was
    reaped, is never started, and every run ends in the dependency error
    listing file:b. *)
Theorem duplicated_dependency_survives_reap :
  (forall items item,
      In item items ->
      In (Concrete item (DEPENDS_STATIC item ++ depends item))
         (inject_dummy_items items))
  /\ In (Concrete file_b_twice ["file:a"; "file:a"])
        (inject_dummy_items [file_a; file_b_twice])
  /\ In (Concrete file_b_twice ["file:a"])
        (remove_dep_from_items (inject_dummy_items [file_a; file_b_twice])
           "file:a")
  /\ (forall s,
        steps (apply_items [file_a; file_b_twice] 1 false) s ->
        final s = true ->
        pc s = Raised (ItemDependencyError
                         [DummyItem "file" ["file:b"];
                          Concrete file_b_twice ["file:a"]])
        /\ yielded s = [apply_result file_a]
        /\ trace s = [Started (Concrete file_a []); Reaped "file:a"]).
Proof.
  split; [exact inject_dummy_items_deps|].
  split; [vm_compute; auto|]. split; [vm_compute; auto|].
  intros s H F.
  apply final_states_of in H; [|vm_compute; reflexivity|exact F].
  vm_compute in H. destruct H as [<-|[]]. repeat split; reflexivity.
Qed.

Lemma duplicated_dependency_survives_reap_witness :
  In (Concrete file_b_twice (DEPENDS_STATIC file_b_twice ++ depends file_b_twice))
     (inject_dummy_items [file_a; file_b_twice]).
Proof.
  apply (proj1 duplicated_dependency_survives_reap). right. now left.
Defined.

(** *** Every run can be brought to an end *)

(** What is left to do: entries not yet started count three, running
    tasks two, finished tasks not yet reaped one. *)
Definition work_left (s : state) : nat :=
  3 * (List.length (items_with_deps s) + List.length (items_without_deps s))
  + 2 * busy_count (pool s) + reapable_count (pool s).

(** The pool has a worker, and [wait()] is only entered with a task in
    flight. *)
Definition live (s : state) : Prop :=
  0 < workers (pool s)
  /\ (pc s = Waiting -> busy (pool s) <> [] \/ reapable (pool s) <> []).

Lemma filter_partition_length {A : Type} (f : A -> bool) (l : list A) :
  List.length (filter (fun x => negb (f x)) l) + List.length (filter f l)
  = List.length l.
Proof.
  induction l as [|x r IH]; [reflexivity|].
  simpl. destruct (f x); simpl; lia.
Qed.

Lemma reap_one_fields s t others :
  pc (reap_one s t others) = Reaping
  /\ items_with_deps (reap_one s t others)
     = filter (fun e => negb (no_deps e))
         (remove_dep_from_items (items_with_deps s) (task_id t))
  /\ items_without_deps (reap_one s t others)
     = filter no_deps (remove_dep_from_items (items_with_deps s) (task_id t))
  /\ pool (reap_one s t others)
     = mkPool (workers (pool s)) (busy (pool s)) others
  /\ trace (reap_one s t others) = trace s ++ [Reaped (task_id t)].
Proof. repeat split; reflexivity. Qed.

Lemma live_move s s' : live s -> move s s' -> live s'.
Proof.
  intros [W Wait] M. unfold live.
  destruct M as [P|t others P Hin|P R|P R|P|t others F Hin].
  - unfold enter_loop. destruct (loop_condition s).
    + destruct (dispatch _ _ _ _) as [[r p'] tr'] eqn:D.
      apply dispatch_spec in D as (started & _ & W' & _). simpl.
      rewrite W'. split; [exact W|discriminate].
    + simpl. split; [exact W|discriminate].
  - destruct (reap_one_fields s t others) as (Pc & _ & _ & Po & _).
    rewrite Pc, Po. simpl. split; [exact W|discriminate].
  - unfold after_reaping.
    destruct (Nat.ltb 0 (busy_count (pool s))) eqn:B; simpl.
    + destruct (_ && _); simpl; (split; [exact W|]); [|discriminate].
      intros _. left. unfold busy_count in B. apply Nat.ltb_lt in B.
      destruct (busy (pool s)); [simpl in B; lia|discriminate].
    + split; [exact W|discriminate].
  - simpl. split; [exact W|discriminate].
  - unfold leave. destruct (items_with_deps s); simpl;
      (split; [exact W|discriminate]).
  - simpl. split; [exact W|]. intros _. right.
    destruct (reapable (pool s)); discriminate.
Qed.

Lemma live_steps s s' : live s -> steps s s' -> live s'.
Proof. apply steps_invariant. exact live_move. Qed.

Lemma progress_finish s :
  final s = false -> busy (pool s) <> [] ->
  exists s', step s s' /\ work_left s' < work_left s.
Proof.
  intros F B. destruct (busy (pool s)) as [|t others] eqn:E; [contradiction|].
  exists (finish_task s t others). split.
  - apply step_move. constructor; [exact F|]. rewrite E. now left.
  - unfold work_left, busy_count, reapable_count. simpl.
    rewrite E, length_app. simpl. lia.
Qed.

Lemma progress_reap s :
  pc s = Reaping -> reapable (pool s) <> [] ->
  exists s', step s s' /\ work_left s' < work_left s.
Proof.
  intros P R. destruct (reapable (pool s)) as [|t others] eqn:E;
    [contradiction|].
  exists (reap_one s t others). split.
  - apply step_move. constructor; [exact P|]. rewrite E. now left.
  - destruct (reap_one_fields s t others) as (_ & Wd & Wo & Po & _).
    unfold work_left, busy_count, reapable_count.
    rewrite Wd, Wo, Po, E. simpl.
    rewrite filter_partition_length.
    unfold remove_dep_from_items. rewrite length_map. lia.
Qed.

Lemma progress_looptest s :
  pc s = LoopTest -> busy (pool s) = [] -> live s ->
  exists s', steps s s' /\ (final s' = true \/ work_left s' < work_left s).
Proof.
  intros P B [W _].
  assert (step s (enter_loop s)) as S1 by (apply step_move; now constructor).
  destruct (loop_condition s) eqn:C.
  - (* the dispatch loop runs *)
    pose proof S1 as S1'. unfold enter_loop in S1' |- *. rewrite C in *.
    destruct (dispatch (rev (items_without_deps s)) (pool s) (interactive s)
                (trace s)) as [[r p'] tr'] eqn:D.
    pose proof (dispatch_spec _ _ _ _ _ _ _ D)
      as (started & Split & W' & B' & R' & T' & L' & Stop).
    set (s1 := mkState Reaping (items_with_deps s) (rev r) p' (interactive s)
                 (yielded s) tr') in *.
    assert (List.length (items_without_deps s)
            = List.length started + List.length r) as Len.
    { rewrite <- length_rev, Split, length_app. reflexivity. }
    assert (work_left s1 + List.length started = work_left s) as Mu.
    { unfold work_left, busy_count, reapable_count, s1. simpl.
      rewrite length_rev, B', R', B, Len. simpl. rewrite length_map. lia. }
    destruct started as [|e0 started].
    + (* nothing could be started *)
      destruct (reapable (pool s)) as [|t others] eqn:R.
      * exfalso. simpl in Split. rewrite app_nil_r in B'.
        unfold loop_condition, busy_count, reapable_count in C.
        rewrite B, R in C. simpl in C. rewrite !orb_false_r in C.
        apply negb_true_iff, Nat.eqb_neq in C.
        destruct Stop as [->|Idle].
        -- simpl in Len. lia.
        -- unfold idle_count, busy_count, reapable_count in Idle.
           rewrite W', B', R', B in Idle. simpl in Idle. lia.
      * destruct (progress_reap s1) as (s2 & S2 & M2).
        -- reflexivity.
        -- unfold s1. simpl. rewrite R'. discriminate.
        -- exists s2. split.
           ++ exact (steps_step _ _ _ (steps_one _ _ S1') S2).
           ++ right. simpl in Mu. lia.
    + exists s1. split; [exact (steps_one _ _ S1')|].
      right. simpl in Mu. lia.
  - (* the loop is left *)
    set (s1 := enter_loop s) in *.
    assert (pc s1 = AfterLoop) as P1
      by (unfold s1, enter_loop; now rewrite C).
    exists (leave s1). split.
    + apply (steps_step _ _ _ (steps_one _ _ S1)).
      apply step_move. now constructor.
    + left. unfold leave, final. destruct (items_with_deps s1); reflexivity.
Qed.

Lemma progress s :
  live s -> final s = false ->
  exists s', steps s s' /\ (final s' = true \/ work_left s' < work_left s).
Proof.
  intros L F.
  destruct (busy (pool s)) as [|t0 b0] eqn:B.
  2:{ destruct (progress_finish s F) as (s' & St & M);
        [rewrite B; discriminate|].
      exists s'. split; [exact (steps_one _ _ St)|now right]. }
  destruct (pc s) eqn:P.
  - now apply progress_looptest.
  - destruct (reapable (pool s)) as [|t others] eqn:R.
    + (* the reap loop is over and no worker is busy: back to the head *)
      assert (step s (after_reaping s)) as S1
        by (apply step_move; now constructor).
      assert (after_reaping s
              = mkState LoopTest (items_with_deps s) (items_without_deps s)
                  (pool s) (interactive s) (yielded s) (trace s)) as E.
      { unfold after_reaping, busy_count. now rewrite B. }
      rewrite E in S1.
      set (s1 := mkState LoopTest (items_with_deps s) (items_without_deps s)
                   (pool s) (interactive s) (yielded s) (trace s)) in *.
      assert (live s1) as L1 by (split; [exact (proj1 L)|discriminate]).
      destruct (progress_looptest s1 eq_refl B L1) as (s' & Run & M).
      exists s'. split; [|exact M].
      exact (steps_trans _ _ _ (steps_one _ _ S1) Run).
    + destruct (progress_reap s P) as (s' & St & M);
        [rewrite R; discriminate|].
      exists s'. split; [exact (steps_one _ _ St)|now right].
  - destruct L as [W Wait]. destruct (Wait P) as [N|N]; [congruence|].
    assert (step s (mkState LoopTest (items_with_deps s)
                      (items_without_deps s) (pool s) (interactive s)
                      (yielded s) (trace s))) as S1
      by (apply step_move; now constructor).
    set (s1 := mkState LoopTest (items_with_deps s) (items_without_deps s)
                 (pool s) (interactive s) (yielded s) (trace s)) in *.
    assert (live s1) as L1 by (split; [exact W|discriminate]).
    destruct (progress_looptest s1 eq_refl B L1) as (s' & Run & M).
    exists s'. split; [|exact M].
    exact (steps_trans _ _ _ (steps_one _ _ S1) Run).
  - exists (leave s). split.
    + apply steps_one, step_move. now constructor.
    + left. unfold leave, final. destruct (items_with_deps s); reflexivity.
  - unfold final in F. rewrite P in F. discriminate.
  - unfold final in F. rewrite P in F. discriminate.
Qed.

(** With at least one worker, a run that has come to any state can go on
    to a final one. *)
Lemma can_finish (s : state) :
  live s -> exists s', steps s s' /\ final s' = true.
Proof.
  remember (work_left s) as n eqn:E. revert s E.
  induction n as [n IH] using lt_wf_ind. intros s -> L.
  destruct (final s) eqn:F; [exists s; split; [apply steps_refl|exact F]|].
  destruct (progress s L F) as (s1 & Run & [Fin|Less]).
  - exists s1. auto.
  - destruct (IH _ Less s1 eq_refl (live_steps _ _ L Run)) as (s2 & Run2 & Fin).
    exists s2. split; [exact (steps_trans _ _ _ Run Run2)|exact Fin].
Qed.

Lemma apply_items_live items workers interactive :
  0 < workers -> live (apply_items items workers interactive).
Proof.
  intros W. unfold apply_items.
  destruct (split_items_without_deps _) as [w wo].
  split; [exact W|discriminate].
Qed.

(** *** An item with a dependency that names nothing *)

Lemma remove_first_keeps x y l :
  x <> y -> In y l -> In y (remove_first x l).
Proof.
  intros N. induction l as [|z r IH]; simpl; [auto|].
  intros [->|H].
  - apply String.eqb_neq in N. rewrite N. now left.
  - destruct (String.eqb x z); [exact H|]. right. auto.
Qed.

Lemma entry_id_with_deps e deps : entry_id (with_deps e deps) = entry_id e.
Proof. now destruct e. Qed.

Lemma entry_deps_with_deps e deps : entry_deps (with_deps e deps) = deps.
Proof. now destruct e. Qed.

Lemma in_remove_dep_from_items e' l dep :
  In e' (remove_dep_from_items l dep)
  <-> exists e, In e l
                /\ e' = with_deps e (remove_first dep (entry_deps e)).
Proof.
  unfold remove_dep_from_items. rewrite in_map_iff. split.
  - intros (e & <- & H). exists e. auto.
  - intros (e & H & ->). exists e. auto.
Qed.

Section UnresolvedDependency.

Variable items : list Item.
Variable k : Item.
Variable d : string.
Hypothesis k_listed : In k items.
Hypothesis d_declared : In d (DEPENDS_STATIC k ++ depends k).
Hypothesis d_unresolved : ~ In d (map entry_id (inject_dummy_items items)).

(** What holds all along a run: only ids of the graph are ever started
    or reaped, so [d] is never reaped and [k] stays pending. *)
Definition stuck (s : state) : Prop :=
  (forall e, In e (items_with_deps s ++ items_without_deps s) ->
             In (entry_id e) (map entry_id (inject_dummy_items items)))
  /\ (forall t, In t (busy (pool s) ++ reapable (pool s)) ->
                In (task_id t) (map entry_id (inject_dummy_items items)))
  /\ (exists deps, In (Concrete k deps) (items_with_deps s) /\ In d deps)
  /\ (forall deps, In (Concrete k deps) (items_with_deps s) -> In d deps)
  /\ (forall deps, ~ In (Concrete k deps) (items_without_deps s))
  /\ (forall e, In (Started e) (trace s) -> forall deps, e <> Concrete k deps)
  /\ pc s <> Returned
  /\ (forall e, pc s = Raised e -> e = ItemDependencyError (items_with_deps s)).

Lemma stuck_init workers interactive :
  stuck (apply_items items workers interactive).
Proof.
  unfold apply_items, split_items_without_deps. simpl.
  assert (forall deps, In (Concrete k deps) (inject_dummy_items items) ->
                       deps = DEPENDS_STATIC k ++ depends k) as Only.
  { intros deps H. unfold inject_dummy_items in H.
    apply in_app_or in H as [H|H]; apply in_map_iff in H as (x & E & _).
    - discriminate E.
    - now injection E as -> <-. }
  repeat split.
  - intros e H. apply in_map.
    apply in_app_or in H as [H|H]; apply filter_In in H as [H _]; exact H.
  - simpl. contradiction.
  - exists (DEPENDS_STATIC k ++ depends k). split; [|exact d_declared].
    apply filter_In. split; [now apply inject_dummy_items_deps|].
    unfold no_deps. simpl.
    destruct (DEPENDS_STATIC k ++ depends k); [contradiction|reflexivity].
  - intros deps H. apply filter_In in H as [H _].
    rewrite (Only deps H). exact d_declared.
  - intros deps H. apply filter_In in H as [H N].
    rewrite (Only deps H) in N. unfold no_deps in N. simpl in N.
    destruct (DEPENDS_STATIC k ++ depends k); [contradiction|discriminate].
  - simpl. contradiction.
  - discriminate.
  - discriminate.
Qed.

Lemma stuck_move s s' : stuck s -> move s s' -> stuck s'.
Proof.
  intros (Ids & Tasks & (deps0 & K0 & D0) & Blocked & NotReady & NotStarted
          & NotRet & Exn) M.
  destruct M as [P|t others P Hin|P R|P R|P|t others F Hin].
  - (* the loop head *)
    unfold enter_loop. destruct (loop_condition s).
    + destruct (dispatch _ _ _ _) as [[r p'] tr'] eqn:D.
      apply dispatch_spec in D as (started & Split & _ & B' & R' & T' & _).
      assert (forall e, In e (started ++ r) -> In e (items_without_deps s))
        as Sub.
      { intros e H. rewrite <- Split in H. now apply in_rev. }
      unfold stuck. simpl. repeat split.
      * intros e H. apply Ids. apply in_app_or in H as [H|H];
          apply in_or_app; [now left|right].
        apply Sub. apply in_or_app. right. now apply in_rev.
      * intros t H. rewrite B', R' in H.
        apply in_app_or in H as [H|H];
          [apply in_app_or in H as [H|H]|].
        -- apply Tasks. apply in_or_app. now left.
        -- apply in_map_iff in H as (e & <- & He). simpl.
           apply Ids. apply in_or_app. right. apply Sub.
           apply in_or_app. now left.
        -- apply Tasks. apply in_or_app. now right.
      * eauto.
      * exact Blocked.
      * intros deps H. apply (NotReady deps). apply Sub.
        apply in_or_app. right. now apply in_rev.
      * intros e H deps ->. rewrite T' in H.
        apply in_app_or in H as [H|H].
        -- exact (NotStarted _ H deps eq_refl).
        -- apply in_map_iff in H as (e & E & He). injection E as ->.
           apply (NotReady deps). apply Sub. apply in_or_app. now left.
      * discriminate.
      * discriminate.
    + unfold stuck. simpl. repeat split; eauto; discriminate.
  - (* a reap *)
    destruct (reap_one_fields s t others) as (Pc & Wd & Wo & Po & Tr).
    assert (task_id t <> d) as Nd.
    { intros E. apply d_unresolved. rewrite <- E. apply Tasks.
      apply in_or_app. right. exact (proj1 (picks_in _ _ _ Hin)). }
    unfold stuck. rewrite Pc, Wd, Wo, Po, Tr. simpl. repeat split.
    + intros e H.
      assert (In e (remove_dep_from_items (items_with_deps s) (task_id t)))
        as H' by (apply in_app_or in H as [H|H];
                  apply filter_In in H as [H _]; exact H).
      apply in_remove_dep_from_items in H' as (e0 & He0 & ->).
      rewrite entry_id_with_deps. apply Ids. apply in_or_app. now left.
    + intros t0 H. apply Tasks. apply in_app_or in H as [H|H];
        apply in_or_app; [now left|right].
      exact (proj2 (picks_in _ _ _ Hin) _ H).
    + exists (remove_first (task_id t) deps0).
      assert (In d (remove_first (task_id t) deps0)) as Dk
        by (apply remove_first_keeps; assumption).
      split; [|exact Dk]. apply filter_In. split.
      * apply in_remove_dep_from_items. exists (Concrete k deps0). auto.
      * unfold no_deps. simpl.
        destruct (remove_first (task_id t) deps0); [contradiction|reflexivity].
    + intros deps H. apply filter_In in H as [H _].
      apply in_remove_dep_from_items in H as (e0 & He0 & E).
      destruct e0 as [item deps1|ty deps1]; simpl in E; [|discriminate].
      injection E as <- ->. apply remove_first_keeps; [exact Nd|].
      exact (Blocked _ He0).
    + intros deps H. apply filter_In in H as [H N].
      apply in_remove_dep_from_items in H as (e0 & He0 & E).
      destruct e0 as [item deps1|ty deps1]; simpl in E; [|discriminate].
      injection E as <- ->.
      assert (In d (remove_first (task_id t) deps1)) as Dk
        by (apply remove_first_keeps; [exact Nd|exact (Blocked _ He0)]).
      unfold no_deps in N. simpl in N.
      destruct (remove_first (task_id t) deps1); [contradiction|discriminate].
    + intros e H deps ->. apply in_app_or in H as [H|H].
      * exact (NotStarted _ H deps eq_refl).
      * destruct H as [H|[]]. discriminate H.
    + discriminate.
    + discriminate.
  - unfold after_reaping. destruct (_ && _); unfold stuck; simpl;
      repeat split; eauto; discriminate.
  - unfold stuck. simpl. repeat split; eauto; discriminate.
  - unfold leave. destruct (items_with_deps s) as [|e0 r0] eqn:W;
      [contradiction|].
    unfold stuck. simpl. repeat split; eauto; try discriminate.
    intros e [= <-]. reflexivity.
  - unfold stuck. simpl. repeat split; eauto.
    + intros t0 H. apply Tasks.
      destruct (picks_in _ _ _ Hin) as [Ht Ho].
      apply in_app_or in H as [H|H]; [apply in_or_app; left; now apply Ho|].
      apply in_app_or in H as [H|[<-|[]]]; apply in_or_app; [now right|now left].
Qed.

Lemma stuck_steps workers interactive s :
  steps (apply_items items workers interactive) s -> stuck s.
Proof.
  apply (steps_invariant stuck stuck_move). apply stuck_init.
Qed.

End UnresolvedDependency.

(** The type-group of every declared dependency is materialized. *)

Lemma assoc_get_some_in {A : Type} k (v : A) m :
  assoc_get k m = Some v -> In (k, v) m.
Proof.
  induction m as [|[k' v'] r IH]; simpl; [discriminate|].
  destruct (String.eqb k k') eqn:E.
  - apply String.eqb_eq in E. subst k'. intros [= ->]. now left.
  - intros H. right. auto.
Qed.

Lemma assoc_set_keeps {A : Type} k k' (v : A) m :
  assoc_get k m <> None -> assoc_get k (assoc_set k' v m) <> None.
Proof.
  intros H. destruct (String.eqb k k') eqn:E.
  - apply String.eqb_eq in E. subst k'. rewrite assoc_get_set_eq. discriminate.
  - apply String.eqb_neq in E. now rewrite assoc_get_set_neq.
Qed.

Lemma ensure_dummy_keeps k t m :
  assoc_get k m <> None -> assoc_get k (ensure_dummy t m) <> None.
Proof.
  intros H. unfold ensure_dummy. destruct (assoc_get t m); [exact H|].
  now apply assoc_set_keeps.
Qed.

Lemma ensure_dummy_present t m : assoc_get t (ensure_dummy t m) <> None.
Proof.
  unfold ensure_dummy. destruct (assoc_get t m) eqn:E.
  - rewrite E. discriminate.
  - rewrite assoc_get_set_eq. discriminate.
Qed.

Lemma ensure_deps_keeps k deps : forall m,
  assoc_get k m <> None ->
  assoc_get k (fold_left (fun d dep => ensure_dummy (type_of dep) d) deps m)
  <> None.
Proof.
  induction deps as [|dep r IH]; intros m H; simpl; [exact H|].
  apply IH. now apply ensure_dummy_keeps.
Qed.

Lemma ensure_deps_present dep deps : forall m,
  In dep deps ->
  assoc_get (type_of dep)
    (fold_left (fun d dep => ensure_dummy (type_of dep) d) deps m) <> None.
Proof.
  induction deps as [|dep' r IH]; intros m H; simpl; [contradiction|].
  destruct H as [->|H].
  - apply ensure_deps_keeps. apply ensure_dummy_present.
  - now apply IH.
Qed.

Lemma inject_step_keeps k m item :
  assoc_get k m <> None -> assoc_get k (inject_step m item) <> None.
Proof.
  intros H. unfold inject_step.
  apply ensure_deps_keeps, assoc_set_keeps, ensure_dummy_keeps, H.
Qed.

Lemma inject_dummy_items_type_group items item dep :
  In item items -> In dep (DEPENDS_STATIC item ++ depends item) ->
  exists deps, In (DummyItem (type_of dep) deps) (inject_dummy_items items).
Proof.
  intros Hi Hd.
  assert (forall m, assoc_get (type_of dep) (fold_left inject_step items m)
                    <> None) as Present.
  { clear - Hi Hd. induction items as [|i r IH]; intros m; [contradiction|].
    simpl. destruct Hi as [->|Hi]; [|now apply IH].
    assert (forall l m', assoc_get (type_of dep) m' <> None ->
                         assoc_get (type_of dep) (fold_left inject_step l m')
                         <> None) as Keep.
    { induction l as [|x l IHl]; intros m' H; simpl; [exact H|].
      apply IHl. now apply inject_step_keeps. }
    apply Keep. unfold inject_step. now apply ensure_deps_present. }
  specialize (Present []).
  destruct (assoc_get (type_of dep) (fold_left inject_step items []))
    as [deps|] eqn:E; [|contradiction].
  exists deps. unfold inject_dummy_items. apply in_or_app. left.
  apply in_map_iff. exists (type_of dep, deps).
  split; [reflexivity|]. now apply assoc_get_some_in.
Qed.

(** The claim about unresolved ids as the specification words it: with
    a dependency id that names no item of the final graph, the run fails
    before any item's apply is started. *)
Definition unresolved_dependency (items : list Item) : Prop :=
  exists k d,
    In k items
    /\ In d (DEPENDS_STATIC k ++ depends k)
    /\ ~ In d (map entry_id (inject_dummy_items items)).

Definition fails_before_any_apply : Prop :=
  forall items workers interactive,
    unresolved_dependency items ->
    forall s, steps (apply_items items workers interactive) s ->
              forall e, ~ In (Started e) (trace s).

(** pkg:k depends on ghost:nope, which no item is called. *)
Definition pkg_k : Item :=
  mkItem "pkg:k" [] ["ghost:nope"] (status_bad, status_ok).

(** The builder hands back a graph for file:a and pkg:k, and the
    scheduler starts file:a. *)
Lemma unknown_dependency_not_caught_at_build_time :
  inject_dummy_items [file_a; pkg_k]
  = [DummyItem "file" ["file:a"]; DummyItem "pkg" ["pkg:k"];
     DummyItem "ghost" []; Concrete file_a []; Concrete pkg_k ["ghost:nope"]]
  /\ ~ fails_before_any_apply.
Proof.
  split; [reflexivity|]. intros C.
  assert (unresolved_dependency [file_a; pkg_k]) as U.
  { exists pkg_k, "ghost:nope". split; [right; now left|].
    split; [now left|].
    intros H. vm_compute in H.
    repeat (destruct H as [H|H]; [discriminate H|]). exact H. }
  assert (steps (apply_items [file_a; pkg_k] 1 false)
            (enter_loop (apply_items [file_a; pkg_k] 1 false))) as Run.
  { apply steps_one, step_move. constructor. reflexivity. }
  apply (C [file_a; pkg_k] 1 false U _ Run (Concrete file_a [])).
  vm_compute. now left.
Qed.

(** C2 (amended): when some item declares a dependency id that names no
    item of the final graph, the graph builder does not fail: it
    materializes the type-group of that id's type, and the scheduler
    runs.  The item with the unresolved dependency is never started;
    with at least one worker every run can be brought to an end, and a
    run can only end by raising the dependency error, the one also used
    for cycles, with that item among the items it lists. *)
Theorem unresolved_dependency_ends_in_dependency_error :
  forall (items : list Item) (k : Item) (d : string) (workers : nat)
         (interactive : bool),
    In k items ->
    In d (DEPENDS_STATIC k ++ depends k) ->
    ~ In d (map entry_id (inject_dummy_items items)) ->
    0 < workers ->
    (exists deps, In (DummyItem (type_of d) deps) (inject_dummy_items items))
    /\ (forall s,
          steps (apply_items items workers interactive) s ->
          (forall e, In (Started e) (trace s) ->
                     forall deps, e <> Concrete k deps)
          /\ (final s = true ->
              exists deps,
                pc s = Raised (ItemDependencyError (items_with_deps s))
                /\ In (Concrete k deps) (items_with_deps s)
                /\ In d deps)
          /\ (exists s', steps s s' /\ final s' = true)).
Proof.
  intros items k d workers interactive Hk Hd Hun W. split.
  - exact (inject_dummy_items_type_group items k d Hk Hd).
  - intros s Run.
    destruct (stuck_steps items k d Hk Hd Hun workers interactive s Run)
      as (_ & _ & (deps & K & D) & _ & _ & NotStarted & NotRet & Exn).
    split; [exact NotStarted|]. split.
    + intros F. exists deps. split; [|split; assumption].
      unfold final in F. destruct (pc s) eqn:P; try discriminate.
      * contradiction.
      * now rewrite (Exn e eq_refl).
    + apply can_finish.
      exact (live_steps _ _ (apply_items_live items workers interactive W) Run).
Qed.

Lemma unresolved_dependency_ends_in_dependency_error_witness :
  exists s deps,
    steps (apply_items [file_a; pkg_k] 1 false) s
    /\ pc s = Raised (ItemDependencyError (items_with_deps s))
    /\ In (Concrete pkg_k deps) (items_with_deps s)
    /\ In "ghost:nope" deps.
Proof.
  assert (~ In "ghost:nope"
            (map entry_id (inject_dummy_items [file_a; pkg_k]))) as U.
  { intros H. vm_compute in H.
    repeat (destruct H as [H|H]; [discriminate H|]). exact H. }
  destruct (unresolved_dependency_ends_in_dependency_error
              [file_a; pkg_k] pkg_k "ghost:nope" 1 false
              (or_intror (or_introl eq_refl)) (or_introl eq_refl) U
              (Nat.lt_0_succ 0)) as [_ Runs].
  destruct (Runs _ (steps_refl _)) as (_ & _ & (s & Run & Fin)).
  destruct (Runs s Run) as (_ & Ends & _).
  destruct (Ends Fin) as (deps & P & K & D).
  exists s, deps. auto.
Defined.

(** ** More on the aggregator *)

Lemma bump_comm c1 c2 r : bump c1 (bump c2 r) = bump c2 (bump c1 r).
Proof. destruct c1, c2; reflexivity. Qed.

Lemma ApplyResult_loop_perm l l' :
  Permutation l l' ->
  forall self r, ApplyResult_loop self l = Ok r ->
                 ApplyResult_loop self l' = Ok r.
Proof.
  induction 1 as [|[b a] l l' _ IH|[b1 a1] [b2 a2] l|l1 l2 l3 _ IH1 _ IH2];
    intros self r.
  - auto.
  - cbn [ApplyResult_loop]. rewrite ApplyResult_step_first_match.
    destruct (first_match b a); [|discriminate]. simpl. apply IH.
  - cbn [ApplyResult_loop]. rewrite !ApplyResult_step_first_match.
    destruct (first_match b1 a1) as [c1|] eqn:E1,
             (first_match b2 a2) as [c2|] eqn:E2;
      cbn [bind]; try discriminate.
    + rewrite !ApplyResult_step_first_match, E1, E2. cbn [bind].
      now rewrite bump_comm.
    + rewrite ApplyResult_step_first_match, E1. discriminate.
  - intros H. apply IH2, IH1, H.
Qed.

(** The aggregate does not depend on the order in which the results
    arrive: two sequences holding the same pairs give the same counters,
    and one makes the aggregator raise exactly when the other does. *)
Theorem ApplyResult_ignores_order :
  forall (node : string) (item_results item_results' : list item_result),
    Permutation item_results item_results' ->
    (forall r, ApplyResult_init node item_results = Ok r <->
               ApplyResult_init node item_results' = Ok r)
    /\ ((exists e, ApplyResult_init node item_results = Raise e) <->
        (exists e, ApplyResult_init node item_results' = Raise e)).
Proof.
  intros node l l' P.
  assert (forall r, ApplyResult_init node l = Ok r <->
                    ApplyResult_init node l' = Ok r) as Same.
  { intros r. unfold ApplyResult_init. split.
    - now apply ApplyResult_loop_perm.
    - apply ApplyResult_loop_perm. now apply Permutation_sym. }
  split; [exact Same|].
  split; intros [e H].
  - destruct (ApplyResult_init node l') as [r|e'] eqn:E; [|eauto].
    pose proof (proj2 (Same r) eq_refl). congruence.
  - destruct (ApplyResult_init node l) as [r|e'] eqn:E; [|eauto].
    pose proof (proj1 (Same r) eq_refl). congruence.
Qed.

Lemma ApplyResult_ignores_order_witness :
  ApplyResult_init "node1" [(status_bad, status_ok); (status_ok, status_ok)]
  = Ok (mkApplyResult "node1" 1 1 0 0 0).
Proof.
  apply (proj1 (ApplyResult_ignores_order "node1"
                  [(status_ok, status_ok); (status_bad, status_ok)]
                  [(status_bad, status_ok); (status_ok, status_ok)]
                  (perm_swap _ _ _))).
  reflexivity.
Defined.

Lemma bump_inj c1 c2 r : bump c1 r = bump c2 r -> c1 = c2.
Proof.
  destruct c1, c2; try reflexivity; unfold bump; intros [= H];
    exfalso; lia.
Qed.

Lemma first_match_conditions (before after : ItemStatus) :
  (first_match before after = Some Correct
   <-> correct before = true /\ correct after = true)
  /\ (first_match before after = Some Aborted
      <-> aborted after = true
          /\ (correct before = false \/ correct after = false))
  /\ (first_match before after = Some Unfixable
      <-> (fixable before = false \/ fixable after = false)
          /\ aborted after = false
          /\ (correct before = false \/ correct after = false))
  /\ (first_match before after = Some Fixed
      <-> correct before = false /\ correct after = true
          /\ aborted after = false
          /\ fixable before = true /\ fixable after = true)
  /\ (first_match before after = Some Failed
      <-> correct before = false /\ correct after = false
          /\ aborted after = false
          /\ fixable before = true /\ fixable after = true).
Proof.
  unfold first_match, clauses. simpl.
  destruct (correct before), (correct after), (aborted after),
    (fixable before), (fixable after); simpl;
    repeat split; intros;
    try reflexivity; try discriminate; try tauto; intuition congruence.
Qed.

Lemma ApplyResult_step_counter self before after c :
  ApplyResult_step self (before, after) = Ok (bump c self)
  <-> first_match before after = Some c.
Proof.
  rewrite ApplyResult_step_first_match.
  destruct (first_match before after) as [c'|].
  - split.
    + intros [= H]. f_equal. exact (bump_inj _ _ _ H).
    + now intros [= ->].
  - split; discriminate.
Qed.

(** What a pair must look like to be counted under each heading, once
    the order of the tests is taken into account: an item correct before
    and after counts as correct even if it reports an abort; an abort
    outranks everything else; fixed and failed are only counted for
    items that did not abort and were fixable before and after. *)
Theorem ApplyResult_counter_conditions :
  forall (self : ApplyResult) (before after : ItemStatus),
    (ApplyResult_step self (before, after) = Ok (bump Correct self)
     <-> correct before = true /\ correct after = true)
    /\ (ApplyResult_step self (before, after) = Ok (bump Aborted self)
        <-> aborted after = true
            /\ (correct before = false \/ correct after = false))
    /\ (ApplyResult_step self (before, after) = Ok (bump Unfixable self)
        <-> (fixable before = false \/ fixable after = false)
            /\ aborted after = false
            /\ (correct before = false \/ correct after = false))
    /\ (ApplyResult_step self (before, after) = Ok (bump Fixed self)
        <-> correct before = false /\ correct after = true
            /\ aborted after = false
            /\ fixable before = true /\ fixable after = true)
    /\ (ApplyResult_step self (before, after) = Ok (bump Failed self)
        <-> correct before = false /\ correct after = false
            /\ aborted after = false
            /\ fixable before = true /\ fixable after = true).
Proof.
  intros self before after. rewrite !ApplyResult_step_counter.
  exact (first_match_conditions before after).
Qed.

(** ** The graph the builder hands over *)

(** The ids of the items of one type, in list order. *)
Definition ids_of_type (t : string) (items : list Item) : list string :=
  map id (filter (fun item => String.eqb (type_of (id item)) t) items).

(** A type that some item has, or some dependency of some item. *)
Definition type_mentioned (t : string) (items : list Item) : Prop :=
  exists item,
    In item items
    /\ (type_of (id item) = t
        \/ exists dep, In dep (DEPENDS_STATIC item ++ depends item)
                       /\ type_of dep = t).

Definition mentions (t : string) (items : list Item) : bool :=
  existsb (fun item =>
             String.eqb (type_of (id item)) t
             || existsb (fun dep => String.eqb (type_of dep) t)
                  (DEPENDS_STATIC item ++ depends item)) items.

Lemma mentions_iff t items : mentions t items = true <-> type_mentioned t items.
Proof.
  unfold mentions, type_mentioned. rewrite existsb_exists. split.
  - intros (item & Hin & H). exists item. split; [exact Hin|].
    apply orb_true_iff in H as [H|H].
    + left. now apply String.eqb_eq.
    + right. apply existsb_exists in H as (dep & Hd & E).
      exists dep. split; [exact Hd|]. now apply String.eqb_eq.
  - intros (item & Hin & H). exists item. split; [exact Hin|].
    apply orb_true_iff. destruct H as [H|(dep & Hd & E)].
    + left. now apply String.eqb_eq.
    + right. apply existsb_exists. exists dep. split; [exact Hd|].
      now apply String.eqb_eq.
Qed.

Lemma ensure_dummy_get t t' m :
  assoc_get t (ensure_dummy t' m)
  = match assoc_get t m with
    | Some deps => Some deps
    | None => if String.eqb t' t then Some [] else None
    end.
Proof.
  unfold ensure_dummy. destruct (String.eqb t' t) eqn:E.
  - apply String.eqb_eq in E. subst t'.
    destruct (assoc_get t m) eqn:G; [now rewrite G|].
    now rewrite assoc_get_set_eq.
  - apply String.eqb_neq in E.
    destruct (assoc_get t' m) eqn:G.
    + now destruct (assoc_get t m).
    + rewrite assoc_get_set_neq by congruence. now destruct (assoc_get t m).
Qed.

Lemma ensure_deps_get t deps : forall m,
  assoc_get t (fold_left (fun d dep => ensure_dummy (type_of dep) d) deps m)
  = match assoc_get t m with
    | Some x => Some x
    | None => if existsb (fun dep => String.eqb (type_of dep) t) deps
              then Some [] else None
    end.
Proof.
  induction deps as [|dep r IH]; intros m; simpl.
  - now destruct (assoc_get t m).
  - rewrite IH, ensure_dummy_get.
    destruct (assoc_get t m); [reflexivity|].
    destruct (String.eqb (type_of dep) t); simpl; [|reflexivity].
    now destruct (existsb _ r).
Qed.

Lemma inject_step_get t m item :
  assoc_get t (inject_step m item)
  = if String.eqb (type_of (id item)) t
    then Some (match assoc_get t m with
               | Some deps => deps
               | None => []
               end ++ [id item])
    else match assoc_get t m with
         | Some deps => Some deps
         | None =>
             if existsb (fun dep => String.eqb (type_of dep) t)
                  (DEPENDS_STATIC item ++ depends item)
             then Some [] else None
         end.
Proof.
  unfold inject_step. rewrite ensure_deps_get.
  destruct (String.eqb (type_of (id item)) t) eqn:E.
  - apply String.eqb_eq in E. rewrite E.
    rewrite assoc_get_set_eq, ensure_dummy_get, String.eqb_refl.
    now destruct (assoc_get t m).
  - apply String.eqb_neq in E.
    rewrite assoc_get_set_neq by congruence.
    rewrite ensure_dummy_get.
    apply String.eqb_neq in E. rewrite E.
    destruct (assoc_get t m); reflexivity.
Qed.

Lemma inject_fold_get t items : forall m,
  assoc_get t (fold_left inject_step items m)
  = match assoc_get t m with
    | Some deps => Some (deps ++ ids_of_type t items)
    | None => if mentions t items then Some (ids_of_type t items) else None
    end.
Proof.
  induction items as [|item r IH]; intros m.
  - simpl. destruct (assoc_get t m); [now rewrite app_nil_r|reflexivity].
  - cbn [fold_left]. rewrite IH, inject_step_get.
    unfold ids_of_type, mentions. cbn [filter existsb].
    destruct (String.eqb (type_of (id item)) t); cbn [map orb].
    + destruct (assoc_get t m); [now rewrite <- app_assoc|reflexivity].
    + destruct (assoc_get t m); [reflexivity|].
      destruct (existsb _ (DEPENDS_STATIC item ++ depends item));
        reflexivity.
Qed.

Lemma assoc_set_NoDup {A : Type} k (v : A) m :
  NoDup (map fst m) -> NoDup (map fst (assoc_set k v m)).
Proof.
  intros H. rewrite Metastack.assoc_set_keys.
  destruct (assoc_get k m) eqn:G; [exact H|].
  apply Metastack.assoc_get_none_not_in in G.
  apply (Permutation_NoDup (Permutation_cons_append _ _)).
  now constructor.
Qed.

Lemma ensure_dummy_NoDup t m :
  NoDup (map fst m) -> NoDup (map fst (ensure_dummy t m)).
Proof.
  intros H. unfold ensure_dummy. destruct (assoc_get t m); [exact H|].
  now apply assoc_set_NoDup.
Qed.

Lemma inject_fold_NoDup items : forall m,
  NoDup (map fst m) -> NoDup (map fst (fold_left inject_step items m)).
Proof.
  induction items as [|item r IH]; intros m H; [exact H|].
  simpl. apply IH. unfold inject_step.
  generalize (assoc_set_NoDup (type_of (id item))
                (match assoc_get (type_of (id item))
                         (ensure_dummy (type_of (id item)) m) with
                 | Some deps => deps ++ [id item]
                 | None => [id item]
                 end) _ (ensure_dummy_NoDup (type_of (id item)) m H)).
  generalize (assoc_set (type_of (id item))
                (match assoc_get (type_of (id item))
                         (ensure_dummy (type_of (id item)) m) with
                 | Some deps => deps ++ [id item]
                 | None => [id item]
                 end) (ensure_dummy (type_of (id item)) m)).
  induction (DEPENDS_STATIC item ++ depends item) as [|dep deps IHd];
    intros m' H'; simpl; [exact H'|].
  apply IHd. now apply ensure_dummy_NoDup.
Qed.

Lemma assoc_get_in_NoDup {A : Type} k (v : A) m :
  NoDup (map fst m) -> In (k, v) m -> assoc_get k m = Some v.
Proof.
  induction m as [|[k' v'] r IH]; simpl; intros N H; [contradiction|].
  inversion N as [|? ? Nk Nr]; subst.
  destruct H as [H|H].
  - injection H as -> ->. now rewrite String.eqb_refl.
  - destruct (String.eqb k k') eqn:E; [|auto].
    apply String.eqb_eq in E. subst k'. exfalso. apply Nk.
    apply in_map_iff. exists (k, v). auto.
Qed.

(** The graph the builder returns: one type-group item for every type
    that an item or a dependency mentions and for no other, never two
    for one type, each waiting for exactly the ids of the input items of
    its type, in input order; then the input items in input order, each
    waiting for its static followed by its user-defined dependencies. *)
Theorem inject_dummy_items_shape :
  forall items : list Item,
    (forall t deps,
        In (DummyItem t deps) (inject_dummy_items items)
        <-> type_mentioned t items /\ deps = ids_of_type t items)
    /\ (forall item deps,
          In (Concrete item deps) (inject_dummy_items items)
          <-> In item items /\ deps = DEPENDS_STATIC item ++ depends item)
    /\ (exists dummies,
          inject_dummy_items items
          = map (fun d => DummyItem (fst d) (snd d)) dummies
            ++ map (fun item =>
                      Concrete item (DEPENDS_STATIC item ++ depends item))
                 items
          /\ NoDup (map fst dummies)).
Proof.
  intros items.
  assert (NoDup (map fst (fold_left inject_step items []))) as N
    by (apply inject_fold_NoDup; constructor).
  split; [|split].
  - intros t deps. rewrite <- mentions_iff. unfold inject_dummy_items.
    rewrite in_app_iff, !in_map_iff. split.
    + intros [([t' d'] & E & Hin)|(item & E & _)]; [|discriminate E].
      simpl in E. injection E as -> ->.
      apply (assoc_get_in_NoDup _ _ _ N) in Hin.
      rewrite inject_fold_get in Hin. simpl in Hin.
      destruct (mentions t items); [|discriminate].
      injection Hin as <-. auto.
    + intros [M ->]. left. exists (t, ids_of_type t items).
      split; [reflexivity|]. apply assoc_get_some_in.
      rewrite inject_fold_get. simpl. now rewrite M.
  - intros item deps. unfold inject_dummy_items.
    rewrite in_app_iff, !in_map_iff. split.
    + intros [(d & E & _)|(item' & E & Hin)]; [discriminate E|].
      injection E as -> <-. auto.
    + intros [Hin ->]. right. exists item. auto.
  - exists (fold_left inject_step items []). split; [reflexivity|exact N].
Qed.

(** ** What a reap takes out of the dependency lists *)

Lemma remove_first_count x l :
  count_occ string_dec (remove_first x l) x
  = Nat.pred (count_occ string_dec l x).
Proof.
  induction l as [|y r IH]; simpl; [reflexivity|].
  destruct (String.eqb x y) eqn:E.
  - apply String.eqb_eq in E. subst y.
    destruct (string_dec x x); [reflexivity|contradiction].
  - apply String.eqb_neq in E. simpl.
    destruct (string_dec y x); [congruence|exact IH].
Qed.

Lemma remove_first_count_other x y l :
  y <> x ->
  count_occ string_dec (remove_first x l) y = count_occ string_dec l y.
Proof.
  intros N. induction l as [|z r IH]; simpl; [reflexivity|].
  destruct (String.eqb x z) eqn:E.
  - apply String.eqb_eq in E. subst z.
    destruct (string_dec x y); [congruence|reflexivity].
  - simpl. destruct (string_dec z y); [now rewrite IH|exact IH].
Qed.

(** [remove_dep_from_items] keeps the items and their order and takes
    exactly one occurrence of the id out of every dependency list that
    holds it, leaving all other ids alone; so the id is gone from a list
    that named it once, and is still there in one that named it more
    often. *)
Theorem remove_dep_from_items_removes_one_occurrence :
  forall (items : list entry) (dep : string),
    map entry_id (remove_dep_from_items items dep) = map entry_id items
    /\ Forall2
         (fun before after =>
            count_occ string_dec (entry_deps after) dep
            = Nat.pred (count_occ string_dec (entry_deps before) dep)
            /\ (forall d, d <> dep ->
                  count_occ string_dec (entry_deps after) d
                  = count_occ string_dec (entry_deps before) d)
            /\ (NoDup (entry_deps before) -> ~ In dep (entry_deps after))
            /\ (1 < count_occ string_dec (entry_deps before) dep ->
                In dep (entry_deps after)))
         items (remove_dep_from_items items dep).
Proof.
  intros items dep. unfold remove_dep_from_items. split.
  - rewrite map_map. apply map_ext. intros e. apply entry_id_with_deps.
  - induction items as [|e r IH]; simpl; constructor; [|exact IH].
    rewrite entry_deps_with_deps.
    pose proof (remove_first_count dep (entry_deps e)) as C.
    split; [exact C|]. split; [|split].
    + intros d N. now apply remove_first_count_other.
    + intros N H.
      apply (count_occ_In string_dec) in H.
      rewrite (NoDup_count_occ string_dec) in N. specialize (N dep). lia.
    + intros H. apply (count_occ_In string_dec). lia.
Qed.

(** ** What holds along every run of [apply_items] *)

(** The pool keeps the size it was built with and never has more tasks
    in flight than it has workers; and with at least one worker a run
    that has come to any state can go on to its end. *)
Theorem apply_items_bounded_and_can_finish :
  forall (items : list Item) (requested : nat) (interactive : bool)
         (s : state),
    steps (apply_items items requested interactive) s ->
    workers (pool s) = requested
    /\ busy_count (pool s) + reapable_count (pool s) <= requested
    /\ (0 < requested -> exists s', steps s s' /\ final s' = true).
Proof.
  intros items requested interactive s Run.
  destruct (apply_items_pool_invariant _ _ _ _ Run) as [W B].
  split; [exact W|]. split; [now rewrite <- W|].
  intros Pos. apply can_finish.
  exact (live_steps _ _ (apply_items_live items requested interactive Pos) Run).
Qed.

Lemma apply_items_bounded_and_can_finish_witness :
  exists s', steps (apply_items [file_a; file_b] 2 false) s'
             /\ final s' = true.
Proof.
  destruct (apply_items_bounded_and_can_finish [file_a; file_b] 2 false _
              (steps_refl _)) as (_ & _ & Fin).
  apply Fin. lia.
Defined.

(** How a run stands once it is past the loop. *)
Definition drained (s : state) : Prop :=
  (forall e, In e (items_with_deps s) -> entry_deps e <> [])
  /\ (pc s = AfterLoop \/ final s = true ->
      items_without_deps s = [] /\ busy (pool s) = []
      /\ reapable (pool s) = [])
  /\ (pc s = Returned -> items_with_deps s = [])
  /\ (forall e, pc s = Raised e ->
                e = ItemDependencyError (items_with_deps s)
                /\ items_with_deps s <> []).

Lemma length_zero_nil {A : Type} (l : list A) :
  Nat.eqb (List.length l) 0 = true -> l = [].
Proof. destruct l; [reflexivity|discriminate]. Qed.

Ltac not_past_the_loop :=
  let E := fresh "E" in intros [E|E]; discriminate E.

Lemma drained_move s s' : drained s -> move s s' -> drained s'.
Proof.
  intros (Deps & Past & Ret & Exn) M.
  destruct M as [P|t others P Hin|P R|P R|P|t others F Hin].
  - unfold enter_loop. destruct (loop_condition s) eqn:C.
    + destruct (dispatch _ _ _ _) as [[r p'] tr']. unfold drained, final.
      simpl. split; [exact Deps|]. split; [not_past_the_loop|].
      split; discriminate.
    + unfold loop_condition, busy_count, reapable_count in C.
      apply orb_false_iff in C as [C C3]. apply orb_false_iff in C as [C1 C2].
      apply negb_false_iff, length_zero_nil in C1.
      assert (busy (pool s) = []) as B
        by (destruct (busy (pool s)); [reflexivity|discriminate C2]).
      assert (reapable (pool s) = []) as Q
        by (destruct (reapable (pool s)); [reflexivity|discriminate C3]).
      unfold drained. simpl. split; [exact Deps|]. split; [auto|].
      split; discriminate.
  - destruct (reap_one_fields s t others) as (Pc & Wd & _).
    unfold drained, final. rewrite Pc, Wd. split; [|split; [|split]].
    + intros e H. apply filter_In in H as [_ H].
      unfold no_deps in H. destruct (entry_deps e); discriminate.
    + not_past_the_loop.
    + discriminate.
    + discriminate.
  - unfold after_reaping. destruct (_ && _); unfold drained, final; simpl;
      (split; [exact Deps|]); (split; [not_past_the_loop|]);
      split; discriminate.
  - unfold drained, final. simpl.
    split; [exact Deps|]. split; [not_past_the_loop|]. split; discriminate.
  - destruct (Past (or_introl P)) as (R0 & B0 & Q0).
    unfold leave. destruct (items_with_deps s) as [|e0 r0] eqn:W;
      unfold drained, final; simpl.
    + split; [exact Deps|]. split; [auto|]. split; [auto|discriminate].
    + split; [exact Deps|]. split; [auto|]. split; [discriminate|].
      intros e [= <-]. split; [reflexivity|discriminate].
  - assert (pc s <> AfterLoop) as NA.
    { intros P. destruct (Past (or_introl P)) as (_ & B0 & _).
      rewrite B0 in Hin. contradiction. }
    unfold drained, final in *. simpl.
    split; [exact Deps|]. split; [|split; [exact Ret|exact Exn]].
    intros [H|H]; [contradiction|]. rewrite F in H. discriminate.
Qed.

(** A run of [apply_items] ends only with nothing ready, no worker busy
    and no result unreaped.  It returns exactly when no item is left
    waiting; otherwise it raises the dependency error, which lists the
    items left waiting, every one of them with a dependency still
    open. *)
Theorem apply_items_ends_drained :
  forall (items : list Item) (requested : nat) (interactive : bool)
         (s : state),
    steps (apply_items items requested interactive) s ->
    final s = true ->
    items_without_deps s = []
    /\ busy (pool s) = []
    /\ reapable (pool s) = []
    /\ (forall e, In e (items_with_deps s) -> entry_deps e <> [])
    /\ ((pc s = Returned /\ items_with_deps s = [])
        \/ (pc s = Raised (ItemDependencyError (items_with_deps s))
            /\ items_with_deps s <> [])).
Proof.
  intros items requested interactive s Run Fin.
  assert (drained s) as (Deps & Past & Ret & Exn).
  { apply (steps_invariant drained drained_move _ _) in Run; [exact Run|].
    unfold apply_items, split_items_without_deps, drained, final. simpl.
    split; [|split; [not_past_the_loop|split; discriminate]].
    intros e H. apply filter_In in H as [_ H].
    unfold no_deps in H. destruct (entry_deps e); discriminate. }
  destruct (Past (or_intror Fin)) as (R0 & B0 & Q0).
  repeat split; auto.
  unfold final in Fin. destruct (pc s) eqn:P; try discriminate.
  - left. auto.
  - right. destruct (Exn e eq_refl) as [-> N]. auto.
Qed.

Lemma apply_items_ends_drained_witness :
  exists s,
    steps (apply_items [file_a; file_b] 1 false) s
    /\ items_without_deps s = [] /\ busy (pool s) = []
    /\ reapable (pool s) = [].
Proof.
  destruct (can_finish (apply_items [file_a; file_b] 1 false)
              (apply_items_live _ 1 false (Nat.lt_0_succ 0)))
    as (s & Run & Fin).
  exists s. split; [exact Run|].
  destruct (apply_items_ends_drained _ _ _ s Run Fin) as (R & B & Q & _).
  auto.
Defined.

End Node.
